(** * libkiss [hashmap.h]: the generalmap engine and its four façades

    A shallow embedding of the open-addressing hash table of
    [hashmap.h] (hashmap, intmap, hashset, intset over one [generalmap]),
    followed by the verification of its documented properties.

    Conventions of the embedding:
    - a C [int] is a [Z] kept in range by [int] (32-bit two's complement
      wrap-around), an [intptr_t] by [intptr] (64 bits);
    - a pointer to a heap array is an [array]: its address together with
      the cells it points to; address 0 is the null pointer;
    - [calloc] and [free] act on an explicit [heap] of live blocks;
    - undefined behaviour (out-of-bounds or null access, comparing
      through an invalid pointer, freeing a block that is not live, a
      failed [assert]) is [None];
    - [generalmapAdd] and [generalmapMerge] call each other, so they
      take a [fuel] that bounds the nesting of growth inside growth;
      running out of it is [None] as well, and the theorems give the
      result for every fuel from 2 up.

    The destructor walk [generalmapFreeObjs] and the duplicating merges
    (which need [strdup]) are outside this development; the [dup]
    argument of [generalmapMerge] is kept, as a function on keys. *)

From Stdlib Require Import ZArith Lia.
From stdpp Require Import base option list.

Local Open Scope Z_scope.
Local Unset Default Proof Using.

(** ** Machine integers *)

Definition wrap (bits z : Z) : Z :=
  (z + 2 ^ (bits - 1)) mod 2 ^ bits - 2 ^ (bits - 1).

Definition int (z : Z) : Z := wrap 32 z.
Definition intptr (z : Z) : Z := wrap 64 z.

(** [x << n] and [x += y] on an [intptr_t]. *)
Definition shl64 (x n : Z) : Z := intptr (Z.shiftl x n).
Definition add64 (x y : Z) : Z := intptr (x + y).

(** ** The heap: [calloc] and [free] *)

Record array := Array { addr : Z; data : list Z }.

Definition null : array := Array 0 [].

Record heap := Heap { brk : Z; live : list Z }.

Definition heap0 : heap := Heap 1 [].

Definition calloc_t : Type := Z → Z → heap → array * heap.

(** [calloc(n, size)]: a fresh zero-filled block of [n] cells (of no cell
    for [n = 0], as glibc does).  A negative [int] count converts to a
    huge [size_t] and the allocation fails. *)
Definition calloc : calloc_t := fun n _ h =>
  if n <? 0 then (null, h)
  else (Array (brk h) (replicate (Z.to_nat n) 0),
        Heap (brk h + 1) (brk h :: live h)).

Definition free (p : array) (h : heap) : option heap :=
  if addr p =? 0 then Some h
  else if bool_decide (addr p ∈ live h)
       then Some (Heap (brk h) (filter (λ a, a ≠ addr p) (live h)))
       else None.

(** [a[i]] and [a[i] = v]. *)
Definition rd (a : array) (i : Z) : option Z :=
  if (addr a =? 0) || (i <? 0) then None else data a !! Z.to_nat i.

Definition wr (a : array) (i v : Z) : option array :=
  if (addr a =? 0) || (i <? 0) || (Z.of_nat (length (data a)) <=? i) then None
  else Some (Array (addr a) (<[Z.to_nat i := v]> (data a))).

(** ** Hash functions *)

Definition hash_round (hash : Z) : Z :=
  let hash := add64 hash (shl64 hash 10) in
  Z.lxor hash (Z.shiftr hash 6).

Definition hash_finish (hash mapsize : Z) : Z :=
  let hash := add64 hash (shl64 hash 3) in
  let hash := Z.lxor hash (Z.shiftr hash 11) in
  let hash := add64 hash (shl64 hash 15) in
  let mask := int (mapsize - 1) in
  Z.land hash mask.

(** [for (i = 0; key[i]; i++)]: the list holds the characters of the
    string; a 0 character, or the end of the list, is the terminator. *)
Fixpoint hashstr_loop (key : list Z) (hash : Z) : Z :=
  match key with
  | [] => hash
  | c :: key' =>
      if c =? 0 then hash
      else hashstr_loop key' (hash_round (add64 hash c))
  end.

Definition hashstr (key : list Z) (mapsize : Z) : Z :=
  hash_finish (hashstr_loop key 0) mapsize.

Definition hashint (element mapsize : Z) : Z :=
  hash_finish (hash_round element) mapsize.

(** ** generalmap *)

Record generalmap := Generalmap {
  size : Z;
  elements : Z;
  keysInt : array;
  hashes : array;
  values : array
}.

Definition mapNull (map : generalmap) : bool := elements map =? 0.

Definition pow2ize (x : Z) : Z :=
  let x := int (x - 1) in
  let x := Z.lor x (Z.shiftr x 1) in
  let x := Z.lor x (Z.shiftr x 2) in
  let x := Z.lor x (Z.shiftr x 4) in
  let x := Z.lor x (Z.shiftr x 8) in
  let x := Z.lor x (Z.shiftr x 16) in
  let x := Z.lor x (Z.shiftr (Z.shiftr x 16) 16) in
  int (x + 1).

Definition generalmapInit (size : Z) (calloc : calloc_t) (hashes : bool)
    (h : heap) : generalmap * heap :=
  let size := pow2ize size in
  let '(k, h) := calloc size 8 h in
  let '(hs, h) := if hashes then calloc size 4 h else (null, h) in
  let '(v, h) := calloc size 8 h in
  (Generalmap size 0 k hs v, h).

Definition generalmapFree (map : generalmap) (hashes_p : bool) (h : heap)
    : option (generalmap * heap) :=
  h ← free (keysInt map) h;
  h ← (if hashes_p then free (hashes map) h else Some h);
  h ← free (values map) h;
  Some (Generalmap (size map) (elements map) null null null, h).

Section Engine.

(** The function pointers the engine is called with: [hashf] returns the
    [intptr_t] of the hash function ([None] when the key cannot be read),
    [cmp] is the optional strcmp-like comparator. *)
Variable hashf : Z → Z → option Z.
Variable cmp : option (Z → Z → option Z).

Definition has_cmp : bool :=
  match cmp with Some _ => true | None => false end.

Definition generalmapIsMatch (map : generalmap) (index key hash : Z)
    : option bool :=
  match cmp with
  | Some c =>
      h ← rd (hashes map) index;
      if h =? hash then
        k ← rd (keysInt map) index;
        r ← c k key;
        Some (r =? 0)
      else Some false
  | None =>
      k ← rd (keysInt map) index;
      Some (k =? key)
  end.

(** [values[index] == 0 || generalmapIsMatch(...)] *)
Definition stops (map : generalmap) (index key hash : Z) : option bool :=
  v ← rd (values map) index;
  if v =? 0 then Some true else generalmapIsMatch map index key hash.

(** One [for] loop of [generalmapFind], [n] iterations from [index]:
    [Some (Some i)] returns [i], [Some None] falls through. *)
Fixpoint find_loop (n : nat) (map : generalmap) (key hash index : Z)
    : option (option Z) :=
  match n with
  | O => Some None
  | S n' =>
      b ← stops map index key hash;
      if b : bool then Some (Some index)
      else find_loop n' map key hash (index + 1)
  end.

Definition generalmapFind (map : generalmap) (key hash : Z) : option Z :=
  r ← find_loop (Z.to_nat (size map - hash)) map key hash hash;
  match r with
  | Some index => Some index
  | None =>
      r ← find_loop (Z.to_nat hash) map key hash 0;
      match r with
      | Some index => Some index
      | None => Some hash
      end
  end.

(** The loop of [generalmapMerge], over the [add] it re-inserts with. *)
Fixpoint merge_loop
    (add : generalmap → Z → Z → heap → option (generalmap * bool * heap))
    (dup : option (Z → Z)) (values_p : bool)
    (n : nat) (index : Z) (dest src : generalmap) (h : heap)
    : option (generalmap * heap) :=
  match n with
  | O => Some (dest, h)
  | S n' =>
      k ← rd (keysInt src) index;
      if k =? 0 then merge_loop add dup values_p n' (index + 1) dest src h
      else
        let key := match dup with Some d => d k | None => k end in
        v ← (if values_p then rd (values src) index else Some 0);
        '(dest, _, h) ← add dest key v h;
        merge_loop add dup values_p n' (index + 1) dest src h
  end.

(** The slot update at the end of [generalmapAdd]. *)
Definition store (map : generalmap) (key value hash index : Z)
    (values_p : bool) : option (generalmap * bool) :=
  v ← rd (values map) index;
  '(map, present) ←
    (if v =? 0 then
       ks ← wr (keysInt map) index key;
       let map := Generalmap (size map) (int (elements map + 1)) ks
                             (hashes map) (values map) in
       if has_cmp then
         hs ← wr (hashes map) index hash;
         Some (Generalmap (size map) (elements map) (keysInt map) hs
                          (values map), false)
       else Some (map, false)
     else
       m ← generalmapIsMatch map index key hash;
       if m : bool then Some (map, true) else None);
  vs ← wr (values map) index (if values_p then value else 1);
  Some (Generalmap (size map) (elements map) (keysInt map) (hashes map) vs,
        present).

(** The body of [generalmapAdd] after the growth test: hash, probe,
    store. *)
Definition insertion (map : generalmap) (key value : Z) (values_p : bool)
    (h : heap) : option (generalmap * bool * heap) :=
  hash ← int <$> hashf key (size map);
  index ← generalmapFind map key hash;
  '(map, present) ← store map key value hash index values_p;
  Some (map, present, h).

(** [fuel] bounds the nesting of growth inside growth. *)
Fixpoint generalmapAdd (fuel : nat) (map : generalmap) (key value : Z)
    (values_p : bool) (h : heap) : option (generalmap * bool * heap) :=
  match fuel with
  | O => None
  | S fuel' =>
      '(map, h) ←
        (if int (int (elements map * 2) + 1) >=? size map then
           let '(newmap, h) :=
             generalmapInit (int (size map * 2)) calloc has_cmp h in
           '(newmap, h) ←
             merge_loop
               (λ m k v h, generalmapAdd fuel' m k v values_p h)
               None values_p (Z.to_nat (size map)) 0 newmap map h;
           '(_, h) ← generalmapFree map has_cmp h;
           Some (newmap, h)
         else Some (map, h));
      insertion map key value values_p h
  end.

Definition generalmapMerge (fuel : nat) (dest src : generalmap)
    (dup : option (Z → Z)) (values_p : bool) (h : heap)
    : option (generalmap * heap) :=
  merge_loop (λ m k v h, generalmapAdd fuel m k v values_p h)
             dup values_p (Z.to_nat (size src)) 0 dest src h.

Definition generalmapMap (map : generalmap) (key : Z) : option Z :=
  hash ← int <$> hashf key (size map);
  index ← generalmapFind map key hash;
  m ← generalmapIsMatch map index key hash;
  if m : bool then rd (values map) index else Some 0.

Definition generalmapTest (map : generalmap) (key : Z) : option bool :=
  hash ← int <$> hashf key (size map);
  index ← generalmapFind map key hash;
  generalmapIsMatch map index key hash.

(** A sequence of [generalmapAdd] calls on one table, in order. *)
Fixpoint adds (fuel : nat) (kvs : list (Z * Z)) (values_p : bool)
    (map : generalmap) (h : heap) : option (generalmap * heap) :=
  match kvs with
  | [] => Some (map, h)
  | (key, value) :: kvs' =>
      '(map, _, h) ← generalmapAdd fuel map key value values_p h;
      adds fuel kvs' values_p map h
  end.

End Engine.

(** ** Façades *)

(** The integer variants hash the key itself and compare by identity. *)
Definition hashint_f (element mapsize : Z) : option Z :=
  Some (hashint element mapsize).

Definition intmapInit (size : Z) (calloc : calloc_t) (h : heap) :=
  generalmapInit size calloc false h.
Definition intmapFree (map : generalmap) (h : heap) :=
  generalmapFree map false h.
Definition intmapAdd (fuel : nat) (map : generalmap) (element value : Z)
    (h : heap) :=
  generalmapAdd hashint_f None fuel map element value true h.
Definition intmapMerge (fuel : nat) (dest src : generalmap) (h : heap) :=
  generalmapMerge hashint_f None fuel dest src None true h.
Definition intmapMap (map : generalmap) (element : Z) :=
  generalmapMap hashint_f None map element.

Definition intsetInit (size : Z) (calloc : calloc_t) (h : heap) :=
  generalmapInit size calloc false h.
Definition intsetFree (set : generalmap) (h : heap) :=
  generalmapFree set false h.
Definition intsetAdd (fuel : nat) (set : generalmap) (element : Z)
    (h : heap) :=
  generalmapAdd hashint_f None fuel set element 0 false h.
Definition intsetMerge (fuel : nat) (dest src : generalmap) (h : heap) :=
  generalmapMerge hashint_f None fuel dest src None false h.
Definition intsetTest (set : generalmap) (element : Z) :=
  generalmapTest hashint_f None set element.

(** The string variants read their keys through the memory [mem], which
    gives the characters of the string at an address ([None] where no
    string lives, the null pointer included). *)
Section Strings.

Variable mem : Z → option (list Z).

Fixpoint strcmp_chars (a b : list Z) : Z :=
  match a, b with
  | [], [] => 0
  | [], y :: _ => - (y mod 256)
  | x :: _, [] => x mod 256
  | x :: a', y :: b' =>
      if x =? y then strcmp_chars a' b' else x mod 256 - y mod 256
  end.

Definition strcmp (actual key : Z) : option Z :=
  a ← mem actual; b ← mem key; Some (strcmp_chars a b).

Definition hashstr_f (key mapsize : Z) : option Z :=
  s ← mem key; Some (hashstr s mapsize).

Definition hashmapInit (size : Z) (calloc : calloc_t) (h : heap) :=
  generalmapInit size calloc true h.
Definition hashmapFree (map : generalmap) (h : heap) :=
  generalmapFree map true h.
Definition hashmapAdd (fuel : nat) (map : generalmap) (key value : Z)
    (h : heap) :=
  generalmapAdd hashstr_f (Some strcmp) fuel map key value true h.
Definition hashmapMerge (fuel : nat) (dest src : generalmap) (h : heap) :=
  generalmapMerge hashstr_f (Some strcmp) fuel dest src None true h.
Definition hashmapMap (map : generalmap) (key : Z) :=
  generalmapMap hashstr_f (Some strcmp) map key.

Definition hashsetInit (size : Z) (calloc : calloc_t) (h : heap) :=
  generalmapInit size calloc true h.
Definition hashsetFree (set : generalmap) (h : heap) :=
  generalmapFree set true h.
Definition hashsetAdd (fuel : nat) (set : generalmap) (element : Z)
    (h : heap) :=
  generalmapAdd hashstr_f (Some strcmp) fuel set element 0 false h.
Definition hashsetMerge (fuel : nat) (dest src : generalmap) (h : heap) :=
  generalmapMerge hashstr_f (Some strcmp) fuel dest src None false h.
Definition hashsetTest (set : generalmap) (element : Z) :=
  generalmapTest hashstr_f (Some strcmp) set element.

End Strings.

(** * Verification *)

(** ** Machine arithmetic *)

Lemma int_id z : - 2 ^ 31 ≤ z < 2 ^ 31 → int z = z.
Proof.
  intros Hz. unfold int, wrap.
  change (2 ^ (32 - 1)) with 2147483648 in *.
  change (2 ^ 32) with 4294967296.
  change (2 ^ 31) with 2147483648 in Hz.
  rewrite Z.mod_small; lia.
Qed.

Definition is_pow2 (n : Z) : Prop := ∃ k, 0 ≤ k ∧ n = 2 ^ k.

Lemma pow2_le_mono a b : 0 ≤ a ≤ b → 2 ^ a ≤ 2 ^ b.
Proof. intros. apply Z.pow_le_mono_r; lia. Qed.

Lemma pow2_30 : 2 ^ 30 = 1073741824.
Proof. reflexivity. Qed.

Lemma is_pow2_bound n : is_pow2 n → n ≤ 2 ^ 30 → ∃ k, 0 ≤ k ≤ 30 ∧ n = 2 ^ k.
Proof.
  intros (k & Hk & ->) Hle. exists k. split; [|done].
  destruct (Z_le_gt_dec k 30) as [|Hgt]; [lia|].
  assert (2 ^ 31 ≤ 2 ^ k) by (apply pow2_le_mono; lia).
  change (2 ^ 31) with 2147483648 in *. rewrite pow2_30 in Hle. lia.
Qed.

Lemma is_pow2_pos n : is_pow2 n → 1 ≤ n.
Proof.
  intros (k & Hk & ->). assert (0 < 2 ^ k) by (apply Z.pow_pos_nonneg; lia). lia.
Qed.

Lemma is_pow2_double n : is_pow2 n → is_pow2 (2 * n).
Proof.
  intros (k & Hk & ->). exists (k + 1). split; [lia|].
  rewrite Z.pow_add_r by lia. lia.
Qed.

(** The bits of [x] stop at [m] and the [k] bits from [m] down are set. *)
Definition smeared (m k x : Z) : Prop :=
  (∀ i, m < i → Z.testbit x i = false) ∧
  (∀ i, 0 ≤ i → m - k < i ≤ m → Z.testbit x i = true).

Lemma smeared_step m k x :
  0 ≤ m → 0 < k → smeared m k x → smeared m (2 * k) (Z.lor x (Z.shiftr x k)).
Proof.
  intros Hm Hk [Hhi Hlo]. split; intros i.
  - intros Hi. rewrite Z.lor_spec, Z.shiftr_spec by lia.
    rewrite !Hhi by lia. done.
  - intros Hi0 Hi. rewrite Z.lor_spec, Z.shiftr_spec by lia.
    destruct (Z_lt_le_dec (m - k) i).
    + rewrite Hlo by lia. done.
    + rewrite (Hlo (i + k)) by lia. apply orb_true_r.
Qed.

Lemma smeared_ones m x : 0 ≤ m < 32 → smeared m 32 x → x = Z.ones (m + 1).
Proof.
  intros Hm [Hhi Hlo]. apply Z.bits_inj'. intros i Hi.
  destruct (Z_lt_le_dec m i).
  - rewrite Hhi, Z.ones_spec_high by lia. done.
  - rewrite Hlo, Z.ones_spec_low by lia. done.
Qed.

(** [pow2ize] rounds up to the next power of two, on the arguments whose
    next power of two is an [int]. *)
Lemma pow2ize_spec x :
  1 ≤ x ≤ 2 ^ 30 →
  ∃ k, 0 ≤ k ≤ 30 ∧ pow2ize x = 2 ^ k ∧ x ≤ 2 ^ k ∧ 2 ^ k < 2 * x.
Proof.
  intros Hx. rewrite pow2_30 in Hx. unfold pow2ize.
  rewrite (int_id (x - 1)) by (change (2 ^ 31) with 2147483648; lia).
  destruct (Z.eq_dec x 1) as [->|Hne].
  { exists 0. by vm_compute. }
  set (y := x - 1). assert (Hy : 0 < y < 2 ^ 30) by (rewrite pow2_30; lia).
  set (m := Z.log2 y).
  assert (Hm : 0 ≤ m < 30).
  { split; [apply Z.log2_nonneg|]. apply Z.log2_lt_pow2; lia. }
  destruct (Z.log2_spec y) as [Hlo Hhi]; [lia|]. fold m in Hlo, Hhi.
  replace (Z.succ m) with (m + 1) in Hhi by lia.
  assert (S1 : smeared m 1 y).
  { split; intros i.
    - intros Hi. apply Z.bits_above_log2; lia.
    - intros _ Hi. replace i with m by lia. apply Z.bit_log2. lia. }
  apply smeared_step in S1; [|lia..].
  apply smeared_step in S1; [|lia..].
  apply smeared_step in S1; [|lia..].
  apply smeared_step in S1; [|lia..].
  apply smeared_step in S1; [|lia..].
  change (2 * (2 * (2 * (2 * (2 * 1))))) with 32 in S1.
  change (2 * (2 * (2 * (2 * 1)))) with 16 in S1.
  change (2 * (2 * (2 * 1))) with 8 in S1.
  change (2 * (2 * 1)) with 4 in S1.
  change (2 * 1) with 2 in S1.
  set (z := Z.lor _ (Z.shiftr _ 16)) in *.
  assert (Hz : z = Z.ones (m + 1)) by (apply smeared_ones; [lia|done]).
  assert (Hz' : Z.lor z (Z.shiftr (Z.shiftr z 16) 16) = z).
  { apply Z.bits_inj'. intros i Hi.
    rewrite Z.lor_spec, !Z.shiftr_spec by lia.
    destruct S1 as [Hhi' _]. rewrite (Hhi' (i + 16 + 16)) by lia.
    apply orb_false_r. }
  rewrite Hz', Hz, Z.ones_equiv.
  replace (Z.pred (2 ^ (m + 1)) + 1) with (2 ^ (m + 1)) by lia.
  assert (2 ^ (m + 1) ≤ 2 ^ 30) by (apply pow2_le_mono; lia).
  assert (0 < 2 ^ (m + 1)) by (apply Z.pow_pos_nonneg; lia).
  rewrite pow2_30 in *.
  rewrite int_id by (change (2 ^ 31) with 2147483648; lia).
  exists (m + 1). repeat split; try lia.
  rewrite Z.pow_add_r by lia. change (2 ^ 1) with 2 in *.
  rewrite Z.pow_add_r in Hhi by lia. lia.
Qed.

Lemma pow2ize_pow2 n : is_pow2 n → n ≤ 2 ^ 30 → pow2ize n = n.
Proof.
  intros Hp Hle. destruct (is_pow2_bound n Hp Hle) as (k & Hk & ->).
  assert (0 < 2 ^ k) by (apply Z.pow_pos_nonneg; lia).
  destruct (pow2ize_spec (2 ^ k)) as (j & Hj & -> & H1 & H2); [lia|].
  f_equal. destruct (Z.lt_trichotomy j k) as [Hlt|[->|Hgt]]; [|done|].
  - assert (2 ^ j < 2 ^ k) by (apply Z.pow_lt_mono_r; lia). lia.
  - assert (2 ^ (k + 1) ≤ 2 ^ j) by (apply pow2_le_mono; lia).
    rewrite Z.pow_add_r in * by lia. lia.
Qed.

(** Masking by [mapsize - 1] lands in the table when its size is a power
    of two. *)
Lemma hash_finish_range hash mapsize :
  is_pow2 mapsize → mapsize ≤ 2 ^ 30 → 0 ≤ hash_finish hash mapsize < mapsize.
Proof.
  intros Hp Hle. destruct (is_pow2_bound _ Hp Hle) as (k & Hk & ->).
  assert (0 < 2 ^ k) by (apply Z.pow_pos_nonneg; lia).
  unfold hash_finish. cbv zeta.
  rewrite pow2_30 in Hle.
  rewrite int_id by (change (2 ^ 31) with 2147483648; lia).
  replace (2 ^ k - 1) with (Z.ones k) by (rewrite Z.ones_equiv; lia).
  rewrite Z.land_ones by lia. apply Z.mod_pos_bound. lia.
Qed.

Lemma land_le a b : 0 ≤ b → 0 ≤ Z.land a b ≤ b.
Proof.
  intros Hb. split; [apply Z.land_nonneg; auto|].
  pose proof (Z.lor_ldiff_and b a) as Hlor.
  assert (Hz : Z.land (Z.ldiff b a) (Z.land b a) = 0).
  { rewrite (Z.land_comm b a), Z.land_assoc, Z.land_ldiff. apply Z.land_0_l. }
  rewrite <- (Z.lxor_lor _ _ Hz), <- (Z.add_nocarry_lxor _ _ Hz) in Hlor.
  assert (0 ≤ Z.ldiff b a) by (apply Z.ldiff_nonneg; auto).
  rewrite (Z.land_comm a b). lia.
Qed.

(** Whatever the capacity, from 1 up, the masked hash is a slot of the
    table. *)
Lemma hash_finish_slot hash mapsize :
  1 ≤ mapsize < 2 ^ 31 → 0 ≤ hash_finish hash mapsize < mapsize.
Proof.
  intros Hs. unfold hash_finish. cbv zeta.
  rewrite int_id by lia.
  match goal with |- 0 ≤ Z.land ?x _ < _ =>
    pose proof (land_le x (mapsize - 1) ltac:(lia)) end.
  lia.
Qed.

(** ** Arrays *)

(** A non-null array of [n] cells. *)
Definition good (a : array) (n : Z) : Prop :=
  addr a ≠ 0 ∧ Z.of_nat (length (data a)) = n.

Definition upd (a : array) (i v : Z) : array :=
  Array (addr a) (<[Z.to_nat i := v]> (data a)).

Lemma rd_good a n i : good a n → 0 ≤ i < n → is_Some (rd a i).
Proof.
  intros [Ha Hn] Hi. unfold rd.
  destruct (Z.eqb_spec (addr a) 0); [done|].
  destruct (Z.ltb_spec i 0); [lia|]. simpl.
  apply lookup_lt_is_Some. lia.
Qed.

Lemma rd_Some a i v :
  rd a i = Some v → addr a ≠ 0 ∧ 0 ≤ i < Z.of_nat (length (data a)).
Proof.
  unfold rd. destruct (Z.eqb_spec (addr a) 0); [done|].
  destruct (Z.ltb_spec i 0); [done|]. simpl. intros Hl.
  apply lookup_lt_Some in Hl. lia.
Qed.

Lemma wr_good a n i v : good a n → 0 ≤ i < n → wr a i v = Some (upd a i v).
Proof.
  intros [Ha Hn] Hi. unfold wr.
  destruct (Z.eqb_spec (addr a) 0); [done|].
  destruct (Z.ltb_spec i 0); [lia|].
  destruct (Z.leb_spec (Z.of_nat (length (data a))) i); [lia|]. done.
Qed.

Lemma good_upd a n i v : good a n → good (upd a i v) n.
Proof. intros [Ha Hn]. split; [done|]. simpl. by rewrite length_insert. Qed.

Lemma rd_upd_eq a n i v : good a n → 0 ≤ i < n → rd (upd a i v) i = Some v.
Proof.
  intros [Ha Hn] Hi. unfold rd, upd. simpl.
  destruct (Z.eqb_spec (addr a) 0); [done|].
  destruct (Z.ltb_spec i 0); [lia|]. simpl.
  apply list_lookup_insert_eq. lia.
Qed.

Lemma rd_upd_ne a i j v : 0 ≤ i → i ≠ j → rd (upd a i v) j = rd a j.
Proof.
  intros Hi Hne. unfold rd, upd. simpl.
  destruct (Z.eqb_spec (addr a) 0); [done|].
  destruct (Z.ltb_spec j 0); [done|]. simpl.
  apply list_lookup_insert_ne. lia.
Qed.

Lemma rd_replicate a n i :
  addr a ≠ 0 → data a = replicate (Z.to_nat n) 0 → 0 ≤ i < n → rd a i = Some 0.
Proof.
  intros Ha Hd Hi. unfold rd. rewrite Hd.
  destruct (Z.eqb_spec (addr a) 0); [done|].
  destruct (Z.ltb_spec i 0); [lia|]. simpl.
  apply lookup_replicate_2. lia.
Qed.

(** The number of non-zero cells. *)
Definition nz (x : Z) : Z := if x =? 0 then 0 else 1.

Fixpoint count_nz (l : list Z) : Z :=
  match l with
  | [] => 0
  | x :: l' => nz x + count_nz l'
  end.

Lemma nz_bounds x : 0 ≤ nz x ≤ 1.
Proof. unfold nz. destruct (x =? 0); lia. Qed.

Lemma count_nz_bounds l : 0 ≤ count_nz l ≤ Z.of_nat (length l).
Proof.
  induction l as [|x l IH]; simpl; [lia|]. pose proof (nz_bounds x). lia.
Qed.

Lemma count_nz_replicate n : count_nz (replicate n 0) = 0.
Proof. induction n as [|n IH]; simpl; [done|]. by rewrite IH. Qed.

Lemma count_nz_app l1 l2 : count_nz (l1 ++ l2) = count_nz l1 + count_nz l2.
Proof. induction l1 as [|x l1 IH]; simpl; [done|]. rewrite IH. lia. Qed.

Lemma count_nz_insert l i old v :
  l !! i = Some old → count_nz (<[i:=v]> l) = count_nz l - nz old + nz v.
Proof.
  revert i. induction l as [|x l IH]; intros [|i] Hl; simplify_eq/=.
  - lia.
  - rewrite (IH i) by done. lia.
Qed.

Lemma count_nz_zero l i : l !! i = Some 0 → count_nz l < Z.of_nat (length l).
Proof.
  revert i. induction l as [|x l IH]; intros [|i] Hl; simplify_eq/=.
  - pose proof (count_nz_bounds l). change (nz 0) with 0. lia.
  - specialize (IH i Hl). pose proof (nz_bounds x). lia.
Qed.

Lemma count_nz_full l :
  count_nz l = Z.of_nat (length l) → ∀ i x, l !! i = Some x → x ≠ 0.
Proof.
  intros Hc i x Hl ->. apply count_nz_zero in Hl. lia.
Qed.

Lemma count_nz_room l :
  count_nz l < Z.of_nat (length l) → ∃ i, l !! i = Some 0.
Proof.
  induction l as [|x l IH]; simpl; [lia|]. intros Hc.
  destruct (Z.eqb_spec x 0) as [->|Hx].
  - by exists 0%nat.
  - assert (nz x = 1) by (unfold nz; destruct (Z.eqb_spec x 0); [done|lia]).
    destruct IH as [i Hi]; [lia|]. by exists (S i).
Qed.

Lemma count_nz_take_S l j x :
  l !! j = Some x → count_nz (take (S j) l) = count_nz (take j l) + nz x.
Proof.
  intros Hl. rewrite (take_S_r _ _ _ Hl), count_nz_app. simpl. lia.
Qed.

(** ** The heap *)

Ltac mem_solve :=
  rewrite ?elem_of_cons, ?elem_of_nil in *; intuition congruence.

Definition heap_ok (h : heap) : Prop :=
  0 < brk h ∧ ∀ a, a ∈ live h → 0 < a < brk h.

Lemma heap0_ok : heap_ok heap0.
Proof. split; [done|]. intros a Ha. by apply elem_of_nil in Ha. Qed.

Lemma calloc_spec n sz h :
  0 ≤ n → heap_ok h →
  calloc n sz h = (Array (brk h) (replicate (Z.to_nat n) 0),
                   Heap (brk h + 1) (brk h :: live h)) ∧
  heap_ok (Heap (brk h + 1) (brk h :: live h)).
Proof.
  intros Hn [Hb Hl]. unfold calloc.
  destruct (Z.ltb_spec n 0); [lia|]. split; [done|].
  split; simpl; [lia|]. intros a [->|Ha]%elem_of_cons; [lia|].
  specialize (Hl a Ha). lia.
Qed.

Lemma free_spec p h :
  heap_ok h → addr p ∈ live h →
  ∃ h', free p h = Some h' ∧ heap_ok h' ∧ brk h' = brk h ∧
        ∀ a, a ∈ live h' ↔ a ∈ live h ∧ a ≠ addr p.
Proof.
  intros [Hb Hl] Hp. unfold free.
  destruct (Z.eqb_spec (addr p) 0) as [E|_].
  { specialize (Hl _ Hp). lia. }
  rewrite bool_decide_eq_true_2 by done.
  eexists. split; [done|]. split; [|split; [done|]].
  - split; [done|]. simpl. intros a [_ Ha]%list_elem_of_filter. by apply Hl.
  - intros a. simpl. rewrite list_elem_of_filter. tauto.
Qed.

(** ** Probing *)

(** The number of probe steps from slot [a] to slot [i], cyclically, in a
    table of [n] slots. *)
Definition dist (n a i : Z) : Z := if a <=? i then i - a else i - a + n.

Lemma dist_range n a i : 0 ≤ a < n → 0 ≤ i < n → 0 ≤ dist n a i < n.
Proof. intros. unfold dist. destruct (Z.leb_spec a i); lia. Qed.

Lemma dist_inj n a i j :
  0 ≤ a < n → 0 ≤ i < n → 0 ≤ j < n → dist n a i = dist n a j → i = j.
Proof.
  intros ???. unfold dist.
  destruct (Z.leb_spec a i), (Z.leb_spec a j); lia.
Qed.

Section Probing.

Variable cmp : option (Z → Z → option Z).

Lemma find_loop_spec n m key hash i :
  (∀ j, i ≤ j < i + Z.of_nat n → is_Some (stops cmp m j key hash)) →
  (∃ r, find_loop cmp n m key hash i = Some (Some r) ∧
        i ≤ r < i + Z.of_nat n ∧
        stops cmp m r key hash = Some true ∧
        ∀ j, i ≤ j < r → stops cmp m j key hash = Some false) ∨
  (find_loop cmp n m key hash i = Some None ∧
   ∀ j, i ≤ j < i + Z.of_nat n → stops cmp m j key hash = Some false).
Proof.
  revert i. induction n as [|n IH]; intros i Hdef.
  - right. split; [done|]. intros j Hj. lia.
  - destruct (Hdef i) as [b Hb]; [lia|]. simpl. rewrite Hb. simpl.
    destruct b.
    + left. exists i. repeat split; [lia..|done|]. intros j Hj. lia.
    + destruct (IH (i + 1)) as [(r & Hr & Hri & Hs & Hbefore)|[Hr Hall]].
      * intros j Hj. apply Hdef. lia.
      * left. exists r. repeat split; [done|lia..|done|].
        intros j Hj. destruct (Z.eq_dec j i) as [->|]; [done|].
        apply Hbefore. lia.
      * right. split; [done|]. intros j Hj.
        destruct (Z.eq_dec j i) as [->|]; [done|]. apply Hall. lia.
Qed.

(** [idx] is the first slot, in probe order from [hash], that is empty or
    holds the key. *)
Definition probe (m : generalmap) (key hash idx : Z) : Prop :=
  stops cmp m idx key hash = Some true ∧
  ∀ j, 0 ≤ j < size m → dist (size m) hash j < dist (size m) hash idx →
       stops cmp m j key hash = Some false.

Lemma generalmapFind_spec m key hash :
  0 ≤ hash < size m →
  (∀ j, 0 ≤ j < size m → is_Some (stops cmp m j key hash)) →
  ∃ idx, generalmapFind cmp m key hash = Some idx ∧ 0 ≤ idx < size m ∧
    (probe m key hash idx ∨
     (idx = hash ∧ ∀ j, 0 ≤ j < size m → stops cmp m j key hash = Some false)).
Proof.
  intros Hh Hdef. unfold generalmapFind.
  destruct (find_loop_spec (Z.to_nat (size m - hash)) m key hash hash)
    as [(r & -> & Hr & Hs & Hbefore)|[-> Hall1]].
  { intros j Hj. apply Hdef. lia. }
  { simpl. exists r. repeat split; [lia..|]. left. split; [done|].
    intros j Hj. unfold dist.
    destruct (Z.leb_spec hash r); [|lia].
    destruct (Z.leb_spec hash j); intros Hd; [|lia]. apply Hbefore. lia. }
  simpl.
  destruct (find_loop_spec (Z.to_nat hash) m key hash 0)
    as [(r & -> & Hr & Hs & Hbefore)|[-> Hall2]].
  { intros j Hj. apply Hdef. lia. }
  { simpl. exists r. repeat split; [lia..|]. left. split; [done|].
    intros j Hj. unfold dist.
    destruct (Z.leb_spec hash r); [lia|].
    destruct (Z.leb_spec hash j); intros Hd.
    - apply Hall1. lia.
    - apply Hbefore. lia. }
  simpl. exists hash. repeat split; [lia..|]. right. split; [done|].
  intros j Hj. destruct (Z_lt_le_dec j hash).
  - apply Hall2. lia.
  - apply Hall1. lia.
Qed.

Lemma probe_unique m key hash i j :
  0 ≤ hash < size m → 0 ≤ i < size m → 0 ≤ j < size m →
  probe m key hash i → probe m key hash j → i = j.
Proof.
  intros Hh Hi Hj [Si Bi] [Sj Bj].
  destruct (Z.lt_trichotomy (dist (size m) hash i) (dist (size m) hash j))
    as [Hlt|[Heq|Hgt]].
  - specialize (Bj i Hi Hlt). congruence.
  - by apply (dist_inj (size m) hash).
  - specialize (Bi j Hj Hgt). congruence.
Qed.

End Probing.

(** ** Soundness of the engine: no undefined behaviour, load factor *)

Section Soundness.

Variable hashf : Z → Z → option Z.
Variable cmp : option (Z → Z → option Z).

(** [valid k]: [k] is a key the function pointers accept (for the string
    variants, a pointer to a string). *)
Variable valid : Z → Prop.

Hypothesis hashf_valid : ∀ k s,
  valid k → is_pow2 s → s ≤ 2 ^ 30 → ∃ x, hashf k s = Some x ∧ 0 ≤ x < s.
Hypothesis cmp_valid : ∀ c a b,
  cmp = Some c → valid a → valid b → is_Some (c a b).

(** The value [generalmapAdd] stores: the caller's, or the set sentinel
    [(void* ) true]. *)
Definition stored (values_p : bool) (value : Z) : Z :=
  if values_p then value else 1.

Record shaped (m : generalmap) : Prop := Shaped {
  sh_pow2 : is_pow2 (size m);
  sh_max : size m ≤ 2 ^ 30;
  sh_keys : good (keysInt m) (size m);
  sh_values : good (values m) (size m);
  sh_hashes : has_cmp cmp = true → good (hashes m) (size m)
}.

(** What every table built by [generalmapInit] and [generalmapAdd]
    satisfies, whatever the keys and values. *)
Record sound (m : generalmap) : Prop := Sound {
  so_shaped : shaped m;
  so_load : 2 * elements m ≤ size m;
  so_occupied : count_nz (data (values m)) ≤ elements m;
  so_keyed : count_nz (data (keysInt m)) ≤ elements m;
  so_valid : ∀ i k, rd (keysInt m) i = Some k →
                    (k = 0 ∧ rd (values m) i = Some 0) ∨ valid k
}.

(** The heap blocks of a table: distinct and live. *)
Definition blocks (m : generalmap) : list Z :=
  addr (keysInt m) :: addr (values m) ::
  (if has_cmp cmp then [addr (hashes m)] else []).

Definition owned (m : generalmap) (h : heap) : Prop :=
  NoDup (blocks m) ∧ ∀ a, a ∈ blocks m → a ∈ live h.

Lemma sound_elements m : sound m → 0 ≤ elements m ≤ 2 ^ 29.
Proof.
  intros [Hs Hl Ho _ _]. pose proof (count_nz_bounds (data (values m))).
  pose proof (sh_max _ Hs). rewrite pow2_30 in *.
  change (2 ^ 29) with 536870912. lia.
Qed.

Lemma generalmapInit_spec hint h :
  1 ≤ hint ≤ 2 ^ 30 → heap_ok h →
  ∃ m h', generalmapInit hint calloc (has_cmp cmp) h = (m, h') ∧
    size m = pow2ize hint ∧ elements m = 0 ∧
    data (keysInt m) = replicate (Z.to_nat (size m)) 0 ∧
    data (values m) = replicate (Z.to_nat (size m)) 0 ∧
    (has_cmp cmp = true →
       data (hashes m) = replicate (Z.to_nat (size m)) 0) ∧
    shaped m ∧ owned m h' ∧ heap_ok h' ∧
    (∀ a, a ∈ live h → a ∈ live h') ∧ (∀ a, a ∈ blocks m → brk h ≤ a).
Proof.
  intros Hhint Hh. unfold generalmapInit.
  destruct (pow2ize_spec hint Hhint) as (k & Hk & Hp & Hle & _).
  set (n := pow2ize hint) in *.
  assert (Hn : 1 ≤ n ≤ 2 ^ 30).
  { rewrite Hp. split; [|apply pow2_le_mono; lia].
    assert (0 < 2 ^ k) by (apply Z.pow_pos_nonneg; lia). lia. }
  assert (Hn2 : is_pow2 n) by (exists k; split; [lia|done]).
  assert (Hlen : Z.of_nat (length (replicate (Z.to_nat n) 0)) = n)
    by (rewrite length_replicate; lia).
  destruct (calloc_spec n 8 h) as [-> Hh1]; [lia|done|].
  set (h1 := Heap (brk h + 1) (brk h :: live h)) in *.
  destruct (has_cmp cmp) eqn:Hc.
  - destruct (calloc_spec n 4 h1) as [-> Hh2]; [lia|done|].
    set (h2 := Heap (brk h1 + 1) (brk h1 :: live h1)) in *.
    destruct (calloc_spec n 8 h2) as [-> Hh3]; [lia|done|].
    destruct Hh as [Hb Hl].
    eexists _, _. split; [done|]. simpl. split_and!; try done.
    + constructor; simpl; try done; [lia|..]; try (rewrite Hc; intros ?);
        try done; (split; simpl; [lia|done]).
    + unfold owned, blocks. simpl. rewrite Hc. split.
      * repeat constructor; rewrite ?elem_of_cons, ?elem_of_nil; lia.
      * intros a. rewrite !elem_of_cons, elem_of_nil. tauto.
    + intros a Ha. rewrite !elem_of_cons. auto.
    + unfold blocks. simpl. rewrite Hc. intros a.
      rewrite !elem_of_cons, elem_of_nil. lia.
  - destruct (calloc_spec n 8 h1) as [-> Hh3]; [lia|done|].
    destruct Hh as [Hb Hl].
    eexists _, _. split; [done|]. subst h1. simpl. split_and!; try done.
    + constructor; simpl; try done; [lia|..]; try (rewrite Hc; intros ?);
        try done; (split; simpl; [lia|done]).
    + unfold owned, blocks. simpl. rewrite Hc. split.
      * repeat constructor; rewrite ?elem_of_cons, ?elem_of_nil; lia.
      * intros a. rewrite !elem_of_cons, elem_of_nil. tauto.
    + intros a Ha. rewrite !elem_of_cons. auto.
    + unfold blocks. simpl. rewrite Hc. intros a.
      rewrite !elem_of_cons, elem_of_nil. lia.
Qed.

Lemma generalmapFree_spec m h :
  heap_ok h → owned m h →
  ∃ m' h', generalmapFree m (has_cmp cmp) h = Some (m', h') ∧
    heap_ok h' ∧ ∀ a, a ∈ live h' ↔ a ∈ live h ∧ a ∉ blocks m.
Proof.
  intros Hh [Hnd Hlive]. unfold generalmapFree, blocks in *.
  destruct (free_spec (keysInt m) h Hh) as (h1 & -> & Hh1 & _ & L1).
  { apply Hlive. mem_solve. }
  simpl. destruct (has_cmp cmp).
  - rewrite !NoDup_cons in Hnd. destruct Hnd as (N1 & N2 & _).
    destruct (free_spec (hashes m) h1 Hh1) as (h2 & -> & Hh2 & _ & L2).
    { apply L1. split; [apply Hlive|]; mem_solve. }
    simpl.
    destruct (free_spec (values m) h2 Hh2) as (h3 & -> & Hh3 & _ & L3).
    { apply L2. split; [apply L1; split; [apply Hlive|]|]; mem_solve. }
    simpl. eexists _, _. split; [done|]. split; [done|].
    intros a. rewrite L3, L2, L1. mem_solve.
  - rewrite !NoDup_cons in Hnd. destruct Hnd as (N1 & _). simpl.
    destruct (free_spec (values m) h1 Hh1) as (h3 & -> & Hh3 & _ & L3).
    { apply L1. split; [apply Hlive|]; mem_solve. }
    simpl. eexists _, _. split; [done|]. split; [done|].
    intros a. rewrite L3, L1. mem_solve.
Qed.

(** The two outcomes of [store]: the empty slot [idx] is filled, or the
    value of the occupied slot [idx] is replaced. *)
Definition filled (m : generalmap) (key hash idx v : Z) : generalmap :=
  Generalmap (size m) (elements m + 1) (upd (keysInt m) idx key)
    (if has_cmp cmp then upd (hashes m) idx hash else hashes m)
    (upd (values m) idx v).

Definition remapped (m : generalmap) (idx v : Z) : generalmap :=
  Generalmap (size m) (elements m) (keysInt m) (hashes m)
    (upd (values m) idx v).

Lemma has_cmp_Some c : cmp = Some c → has_cmp cmp = true.
Proof. intros H. unfold has_cmp. by rewrite H. Qed.

Lemma has_cmp_None : cmp = None → has_cmp cmp = false.
Proof. intros H. unfold has_cmp. by rewrite H. Qed.

Lemma stops_true m j key hash :
  stops cmp m j key hash = Some true ↔
  rd (values m) j = Some 0 ∨
  ∃ v, rd (values m) j = Some v ∧ v ≠ 0 ∧
       generalmapIsMatch cmp m j key hash = Some true.
Proof.
  unfold stops. destruct (rd (values m) j) as [v|]; simpl;
    [|split; [done|intros [?|(? & ? & _)]; done]].
  destruct (Z.eqb_spec v 0) as [->|Hv].
  - split; [auto|done].
  - split.
    + intros H. right. by exists v.
    + intros [[=]|(v' & [= <-] & _ & H)]; done.
Qed.

Lemma stops_false m j key hash :
  stops cmp m j key hash = Some false ↔
  ∃ v, rd (values m) j = Some v ∧ v ≠ 0 ∧
       generalmapIsMatch cmp m j key hash = Some false.
Proof.
  unfold stops. destruct (rd (values m) j) as [v|]; simpl;
    [|split; [done|intros (? & ? & _); done]].
  destruct (Z.eqb_spec v 0) as [->|Hv].
  - split; [done|]. intros (v' & [= <-] & Hv & _). done.
  - split.
    + intros H. by exists v.
    + intros (v' & [= <-] & _ & H). done.
Qed.

Lemma hash_valid m key :
  shaped m → valid key →
  ∃ hash, int <$> hashf key (size m) = Some hash ∧ 0 ≤ hash < size m.
Proof.
  intros Hs Hk.
  destruct (hashf_valid key (size m) Hk (sh_pow2 _ Hs) (sh_max _ Hs))
    as (x & -> & Hx).
  exists x. simpl. pose proof (sh_max _ Hs) as Hmax. rewrite pow2_30 in Hmax.
  rewrite int_id by (change (2 ^ 31) with 2147483648; lia). done.
Qed.

Lemma stops_defined m j key hash :
  sound m → valid key → 0 ≤ j < size m → is_Some (stops cmp m j key hash).
Proof.
  intros [Hs _ _ _ Hv] Hk Hj. unfold stops.
  destruct (rd_good _ _ j (sh_values _ Hs) Hj) as [v Hrd]. rewrite Hrd. simpl.
  destruct (Z.eqb_spec v 0) as [->|Hne]; [done|].
  unfold generalmapIsMatch.
  destruct (rd_good _ _ j (sh_keys _ Hs) Hj) as [k Hrk]. rewrite Hrk.
  destruct cmp as [c|] eqn:Hc; simpl; [|done].
  destruct (rd_good _ _ j (sh_hashes _ Hs (has_cmp_Some c Hc)) Hj) as [x ->].
  simpl.
  destruct (x =? hash); [|done].
  destruct (Hv j k Hrk) as [[_ Hz]|Hvk]; [congruence|].
  destruct (cmp_valid c k key eq_refl Hvk Hk) as [r ->]. done.
Qed.

(** With a free slot left, [generalmapFind] returns the probe slot. *)
Lemma generalmapFind_probe m key hash :
  sound m → valid key → 0 ≤ hash < size m → elements m < size m →
  ∃ idx, generalmapFind cmp m key hash = Some idx ∧ 0 ≤ idx < size m ∧
         probe cmp m key hash idx.
Proof.
  intros Hso Hk Hh He.
  destruct (generalmapFind_spec cmp m key hash Hh)
    as (idx & HF & Hidx & [Hp|[_ Hfull]]).
  { intros j Hj. by apply stops_defined. }
  { by exists idx. }
  exfalso. pose proof Hso as [Hs _ Ho _ _].
  destruct (sh_values _ Hs) as [Ha Hlen].
  destruct (count_nz_room (data (values m))) as [i Hi]; [lia|].
  pose proof (lookup_lt_Some _ _ _ Hi) as Hlt.
  specialize (Hfull (Z.of_nat i) ltac:(lia)).
  apply stops_false in Hfull as (v & Hv & Hne & _).
  unfold rd in Hv. destruct (Z.eqb_spec (addr (values m)) 0); [done|].
  destruct (Z.ltb_spec (Z.of_nat i) 0); [lia|]. simpl in Hv.
  rewrite Nat2Z.id in Hv. congruence.
Qed.

Lemma store_empty m key value hash idx values_p :
  sound m → 0 ≤ idx < size m → rd (values m) idx = Some 0 →
  store cmp m key value hash idx values_p =
    Some (filled m key hash idx (stored values_p value), false).
Proof.
  intros Hso Hidx Hrd. pose proof (sound_elements m Hso) as He.
  change (2 ^ 29) with 536870912 in He.
  destruct Hso as [Hs _ _ _ _]. unfold store, filled. rewrite Hrd. simpl.
  rewrite (wr_good _ _ idx key (sh_keys _ Hs) Hidx). simpl.
  rewrite int_id by (change (2 ^ 31) with 2147483648; lia).
  destruct (has_cmp cmp) eqn:Hc; simpl.
  - rewrite (wr_good _ _ idx hash (sh_hashes _ Hs Hc) Hidx). simpl.
    by rewrite (wr_good _ _ idx _ (sh_values _ Hs) Hidx).
  - by rewrite (wr_good _ _ idx _ (sh_values _ Hs) Hidx).
Qed.

Lemma store_present m key value hash idx values_p v :
  sound m → 0 ≤ idx < size m → rd (values m) idx = Some v → v ≠ 0 →
  generalmapIsMatch cmp m idx key hash = Some true →
  store cmp m key value hash idx values_p =
    Some (remapped m idx (stored values_p value), true).
Proof.
  intros [Hs _ _ _ _] Hidx Hrd Hv Hm. unfold store, remapped.
  rewrite Hrd. simpl. destruct (Z.eqb_spec v 0); [done|].
  rewrite Hm. simpl.
  by rewrite (wr_good _ _ idx _ (sh_values _ Hs) Hidx).
Qed.

Lemma grow_test_false m :
  0 ≤ elements m → 2 * elements m + 1 < size m → size m ≤ 2 ^ 30 →
  (int (int (elements m * 2) + 1) >=? size m) = false.
Proof.
  intros He Hl Hs. rewrite pow2_30 in Hs.
  rewrite !int_id by (change (2 ^ 31) with 2147483648;
                      rewrite ?int_id by (change (2 ^ 31) with 2147483648; lia);
                      lia).
  rewrite Z.geb_leb. apply Z.leb_gt. lia.
Qed.

Lemma grow_test_true m :
  0 ≤ elements m ≤ 2 ^ 29 → size m ≤ 2 * elements m + 1 →
  (int (int (elements m * 2) + 1) >=? size m) = true.
Proof.
  intros He Hl. change (2 ^ 29) with 536870912 in He.
  rewrite !int_id by (change (2 ^ 31) with 2147483648;
                      rewrite ?int_id by (change (2 ^ 31) with 2147483648; lia);
                      lia).
  rewrite Z.geb_leb. apply Z.leb_le. lia.
Qed.

Lemma generalmapAdd_nogrow fuel m key value values_p h :
  0 ≤ elements m → 2 * elements m + 1 < size m → size m ≤ 2 ^ 30 →
  generalmapAdd hashf cmp (S fuel) m key value values_p h =
  insertion hashf cmp m key value values_p h.
Proof.
  intros He Hl Hs. cbn [generalmapAdd]. by rewrite grow_test_false.
Qed.

Lemma generalmapAdd_grow fuel m key value values_p h nm h1 nm' h2 m0 h3 :
  0 ≤ elements m ≤ 2 ^ 29 → size m ≤ 2 * elements m + 1 →
  generalmapInit (int (size m * 2)) calloc (has_cmp cmp) h = (nm, h1) →
  generalmapMerge hashf cmp fuel nm m None values_p h1 = Some (nm', h2) →
  generalmapFree m (has_cmp cmp) h2 = Some (m0, h3) →
  generalmapAdd hashf cmp (S fuel) m key value values_p h =
  insertion hashf cmp nm' key value values_p h3.
Proof.
  intros He Hl HI HM HF. cbn [generalmapAdd]. rewrite grow_test_true by done.
  rewrite HI. unfold generalmapMerge in HM. rewrite HM. simpl.
  rewrite HF. done.
Qed.

(** [insertion] into a sound table with a free slot. *)
Lemma insertion_sound m key value values_p h :
  sound m → 2 * elements m + 1 < size m → valid key →
  ∃ hash idx,
    int <$> hashf key (size m) = Some hash ∧ 0 ≤ hash < size m ∧
    0 ≤ idx < size m ∧ probe cmp m key hash idx ∧
    ((rd (values m) idx = Some 0 ∧
      insertion hashf cmp m key value values_p h =
        Some (filled m key hash idx (stored values_p value), false, h)) ∨
     (∃ v, rd (values m) idx = Some v ∧ v ≠ 0 ∧
        generalmapIsMatch cmp m idx key hash = Some true ∧
        insertion hashf cmp m key value values_p h =
          Some (remapped m idx (stored values_p value), true, h))).
Proof.
  intros Hso Hl Hk. pose proof (sound_elements m Hso) as He.
  destruct (hash_valid m key (so_shaped _ Hso) Hk) as (hash & Hh & Hhr).
  destruct (generalmapFind_probe m key hash Hso Hk Hhr) as (idx & HF & Hi & Hp);
    [lia|].
  exists hash, idx. split_and!; try done; try lia.
  unfold insertion. rewrite Hh. simpl. rewrite HF. simpl.
  destruct Hp as [Hst Hbefore]. pose proof Hst as Hst'.
  apply stops_true in Hst' as [Hz|(v & Hv & Hne & Hm)].
  - left. split; [done|]. by rewrite store_empty.
  - right. exists v. split_and!; try done.
    by rewrite (store_present _ _ _ _ _ _ v).
Qed.

Lemma rd_lookup a i v : rd a i = Some v → data a !! Z.to_nat i = Some v.
Proof.
  unfold rd. destruct (Z.eqb_spec (addr a) 0); [done|].
  by destruct (Z.ltb_spec i 0).
Qed.

Lemma count_nz_upd a i old v :
  rd a i = Some old →
  count_nz (data (upd a i v)) = count_nz (data a) - nz old + nz v.
Proof. intros Hrd%rd_lookup. simpl. by apply count_nz_insert. Qed.

Lemma count_nz_take_le l j : count_nz (take j l) ≤ count_nz l.
Proof.
  rewrite <- (take_drop j l) at 2. rewrite count_nz_app.
  pose proof (count_nz_bounds (drop j l)). lia.
Qed.

Lemma sound_filled m key hash idx v :
  sound m → 2 * elements m + 1 < size m → 0 ≤ idx < size m →
  rd (values m) idx = Some 0 → valid key →
  sound (filled m key hash idx v).
Proof.
  intros [Hs Hl Ho Hk Hv] Hroom Hidx Hrd Hkey.
  destruct (rd_good _ _ idx (sh_keys _ Hs) Hidx) as [k0 Hk0].
  constructor; simpl.
  - destruct Hs as [H1 H2 H3 H4 H5]. constructor; simpl; try done.
    + by apply good_upd.
    + by apply good_upd.
    + intros Hc. rewrite Hc. apply good_upd. auto.
  - lia.
  - rewrite (count_nz_insert _ _ 0) by (by apply rd_lookup). change (nz 0) with 0.
    pose proof (nz_bounds v). lia.
  - rewrite (count_nz_insert _ _ k0) by (by apply rd_lookup).
    pose proof (nz_bounds k0). pose proof (nz_bounds key). lia.
  - intros i k Hi. destruct (Z.eq_dec i idx) as [->|Hne].
    + rewrite (rd_upd_eq _ (size m)) in Hi by (done || apply Hs).
      right. congruence.
    + rewrite rd_upd_ne in Hi by lia. rewrite rd_upd_ne by lia. auto.
Qed.

Lemma sound_remapped m idx v0 v :
  sound m → 0 ≤ idx < size m → rd (values m) idx = Some v0 → v0 ≠ 0 →
  sound (remapped m idx v).
Proof.
  intros [Hs Hl Ho Hk Hv] Hidx Hrd Hne.
  constructor; simpl; try done.
  - destruct Hs as [H1 H2 H3 H4 H5]. constructor; simpl; try done.
    by apply good_upd.
  - rewrite (count_nz_insert _ _ v0) by (by apply rd_lookup).
    assert (nz v0 = 1) by (unfold nz; destruct (Z.eqb_spec v0 0); [done|lia]).
    pose proof (nz_bounds v). lia.
  - intros i k Hi. destruct (Hv i k Hi) as [[-> Hz]|Hvk]; [|by right].
    destruct (Z.eq_dec i idx) as [->|Hn]; [congruence|].
    left. split; [done|]. by rewrite rd_upd_ne by lia.
Qed.

Lemma blocks_filled m key hash idx v : blocks (filled m key hash idx v) = blocks m.
Proof. unfold blocks, filled. simpl. by destruct (has_cmp cmp). Qed.

Lemma blocks_remapped m idx v : blocks (remapped m idx v) = blocks m.
Proof. done. Qed.

(** The rule of the loop of [generalmapMerge], for an invariant [P] of
    the slots merged so far. *)
Lemma merge_loop_rule (P : Z → generalmap → heap → Prop)
    (add : generalmap → Z → Z → heap → option (generalmap * bool * heap))
    (dup : option (Z → Z)) (values_p : bool) (src : generalmap) :
  (∀ j dest h, 0 ≤ j < size src → P j dest h →
     ∃ k, rd (keysInt src) j = Some k ∧
       if k =? 0 then P (j + 1) dest h
       else ∃ v dest' b h',
         (if values_p then rd (values src) j else Some 0) = Some v ∧
         add dest (match dup with Some d => d k | None => k end) v h
           = Some (dest', b, h') ∧
         P (j + 1) dest' h') →
  ∀ n i dest h, i + Z.of_nat n = size src → 0 ≤ i → P i dest h →
    ∃ dest' h', merge_loop add dup values_p n i dest src h = Some (dest', h') ∧
                P (size src) dest' h'.
Proof.
  intros Hstep n. induction n as [|n IH]; intros i dest h Hn Hi HP.
  - exists dest, h. split; [done|]. by replace (size src) with i by lia.
  - destruct (Hstep i dest h ltac:(lia) HP) as (k & Hk & Hcase).
    simpl. rewrite Hk. simpl. destruct (k =? 0).
    + apply IH; [lia..|done].
    + destruct Hcase as (v & dest' & b & h' & Hv & Hadd & HP').
      cbv zeta. rewrite Hv. simpl. rewrite Hadd. simpl.
      apply IH; [lia..|done].
Qed.

Lemma generalmapInit_sound hint h :
  1 ≤ hint ≤ 2 ^ 30 → heap_ok h →
  ∃ m h', generalmapInit hint calloc (has_cmp cmp) h = (m, h') ∧
    size m = pow2ize hint ∧ elements m = 0 ∧
    sound m ∧ owned m h' ∧ heap_ok h' ∧
    (∀ i, 0 ≤ i < size m → rd (values m) i = Some 0) ∧
    (∀ i, 0 ≤ i < size m → rd (keysInt m) i = Some 0) ∧
    (∀ a, a ∈ live h → a ∈ live h') ∧ (∀ a, a ∈ blocks m → brk h ≤ a).
Proof.
  intros Hhint Hh.
  destruct (generalmapInit_spec hint h Hhint Hh)
    as (m & h' & HI & Hsz & He & Hk & Hv & Hhs & Hs & Ho & Hh' & Hl & Hb).
  assert (HV : ∀ i, 0 ≤ i < size m → rd (values m) i = Some 0).
  { intros i Hi. apply (rd_replicate _ (size m)); [apply Hs|done..]. }
  assert (HK : ∀ i, 0 ≤ i < size m → rd (keysInt m) i = Some 0).
  { intros i Hi. apply (rd_replicate _ (size m)); [apply Hs|done..]. }
  exists m, h'. split_and!; try done.
  constructor; try done.
  - rewrite He. pose proof (is_pow2_pos _ (sh_pow2 _ Hs)). lia.
  - rewrite Hv, count_nz_replicate. lia.
  - rewrite Hk, count_nz_replicate. lia.
  - intros i k Hi. left. destruct (rd_Some _ _ _ Hi) as [_ Hr].
    destruct (sh_keys _ Hs) as [_ Hlen]. rewrite Hlen in Hr.
    rewrite (HK i Hr) in Hi. split; [congruence|]. by apply HV.
Qed.

(** The growth step of [generalmapAdd]: the sound table the insertion
    then runs on. *)
Lemma growth_sound m values_p h fuel :
  sound m → owned m h → heap_ok h →
  size m ≤ 2 * elements m + 1 → elements m < 2 ^ 28 →
  ∃ nm h1 nm' m0 h3,
    generalmapInit (int (size m * 2)) calloc (has_cmp cmp) h = (nm, h1) ∧
    generalmapMerge hashf cmp (S fuel) nm m None values_p h1
      = Some (nm', h1) ∧
    generalmapFree m (has_cmp cmp) h1 = Some (m0, h3) ∧
    sound nm' ∧ owned nm' h3 ∧ heap_ok h3 ∧
    size nm' = 2 * size m ∧ elements nm' ≤ elements m ∧
    (∀ a, a ∈ live h → a ∉ blocks m → a ∈ live h3).
Proof.
  intros Hso Hown Hh Hfull Hsmall.
  pose proof (sound_elements m Hso) as [He0 _].
  pose proof Hso as [Hs Hload Hocc Hkeyed Hvalid].
  pose proof (is_pow2_pos _ (sh_pow2 _ Hs)) as Hpos.
  change (2 ^ 28) with 268435456 in Hsmall.
  rewrite int_id by (change (2 ^ 31) with 2147483648; lia).
  destruct (generalmapInit_sound (size m * 2) h)
    as (nm & h1 & HI & Hsz & Hel & Hsnm & Honm & Hh1 & _ & _ & Hlive & Hfresh);
    [rewrite pow2_30; lia|done|].
  rewrite pow2ize_pow2 in Hsz;
    [|replace (size m * 2) with (2 * size m) by lia;
      apply is_pow2_double, Hs|rewrite pow2_30; lia].
  set (P := λ (j : Z) (dest : generalmap) (h' : heap),
         h' = h1 ∧ sound dest ∧ size dest = size m * 2 ∧
         blocks dest = blocks nm ∧
         elements dest ≤ count_nz (take (Z.to_nat j) (data (keysInt m)))).
  destruct (merge_loop_rule P
              (λ d k v h', generalmapAdd hashf cmp (S fuel) d k v values_p h')
              None values_p m) with (n := Z.to_nat (size m)) (i := 0)
              (dest := nm) (h := h1)
    as (nm' & h2 & HM & -> & Hsnm' & Hsz' & Hbl & Hel'); [|lia|lia| |].
  { intros j dest h' Hj (-> & Hsd & Hszd & Hbd & Hed).
    destruct (rd_good _ _ j (sh_keys _ Hs) Hj) as [k Hk]. exists k.
    split; [done|].
    pose proof (count_nz_take_S _ _ _ (rd_lookup _ _ _ Hk)) as Hcnt.
    replace (S (Z.to_nat j)) with (Z.to_nat (j + 1)) in Hcnt by lia.
    pose proof (count_nz_take_le (data (keysInt m)) (Z.to_nat (j + 1))) as Hle.
    destruct (Z.eqb_spec k 0) as [->|Hk0].
    - unfold P. split_and!; try done. change (nz 0) with 0 in Hcnt. lia.
    - assert (nz k = 1) as Hnz
        by (unfold nz; destruct (Z.eqb_spec k 0); [done|lia]).
      assert (valid k) as Hvk by (destruct (Hvalid j k Hk) as [[? _]|?]; done).
      assert (∃ v, (if values_p then rd (values m) j else Some 0) = Some v)
        as [v Hv].
      { destruct values_p; [apply (rd_good _ _ j (sh_values _ Hs) Hj)|eauto]. }
      pose proof (sound_elements dest Hsd) as [Hed0 _].
      assert (Hroom : 2 * elements dest + 1 < size dest) by lia.
      destruct (insertion_sound dest k v values_p h1 Hsd Hroom Hvk)
        as (hash & idx & Hh' & Hhr & Hidx & Hp &
            [[Hz Hins]|(v0 & Hv0 & Hne & Hm & Hins)]).
      + exists v, (filled dest k hash idx (stored values_p v)), false, h1.
        split; [done|]. split.
        { rewrite generalmapAdd_nogrow; [done|lia..|].
          rewrite Hszd, pow2_30. lia. }
        unfold P. split_and!; try done.
        * by apply sound_filled.
        * by rewrite blocks_filled.
        * simpl. lia.
      + exists v, (remapped dest idx (stored values_p v)), true, h1.
        split; [done|]. split.
        { rewrite generalmapAdd_nogrow; [done|lia..|].
          rewrite Hszd, pow2_30. lia. }
        unfold P. split_and!; try done.
        * by apply (sound_remapped _ _ v0).
        * simpl. lia. }
  { unfold P. split_and!; try done; simpl; lia. }
  assert (Hown1 : owned m h1).
  { destruct Hown as [Hnd Hin]. split; [done|]. intros a Ha. auto. }
  destruct (generalmapFree_spec m h1 Hh1 Hown1) as (m0 & h3 & HF & Hh3 & Hl3).
  exists nm, h1, nm', m0, h3. unfold generalmapMerge. split_and!; try done.
  - destruct Honm as [Hnd Hin]. split; [by rewrite Hbl|].
    intros a Ha. rewrite Hbl in Ha. apply Hl3. split; [auto|].
    intros Hm. destruct Hown as [_ Hinm]. destruct Hh as [_ Hlt].
    specialize (Hlt a (Hinm a Hm)). specialize (Hfresh a Ha). lia.
  - lia.
  - pose proof (count_nz_take_le (data (keysInt m)) (Z.to_nat (size m))). lia.
  - intros a Ha Hnot. apply Hl3. auto.
Qed.

(** [generalmapAdd] on a sound table: it returns, the table stays sound,
    and the slot is stored in a table [m1] (the table itself, or the
    doubled one) that has room. *)
Lemma generalmapAdd_sound m key value values_p h fuel :
  sound m → owned m h → heap_ok h → elements m < 2 ^ 28 → valid key →
  ∃ m1 h1 m' b,
    generalmapAdd hashf cmp (S (S fuel)) m key value values_p h
      = Some (m', b, h1) ∧
    insertion hashf cmp m1 key value values_p h1 = Some (m', b, h1) ∧
    ((2 * elements m + 1 < size m ∧ m1 = m ∧ h1 = h) ∨
     (size m ≤ 2 * elements m + 1 ∧ size m1 = 2 * size m ∧
      elements m1 ≤ elements m)) ∧
    sound m1 ∧ 2 * elements m1 + 1 < size m1 ∧
    sound m' ∧ owned m' h1 ∧ heap_ok h1 ∧
    size m' = size m1 ∧ elements m' = elements m1 + (if b then 0 else 1) ∧
    (∀ a, a ∈ live h → a ∉ blocks m → a ∈ live h1).
Proof.
  intros Hso Hown Hh Hsmall Hk.
  pose proof (sound_elements m Hso) as He.
  pose proof (sh_max _ (so_shaped _ Hso)) as Hmax.
  assert (Hins : ∀ m1 h1, sound m1 → owned m1 h1 →
            2 * elements m1 + 1 < size m1 →
            ∃ m' b, insertion hashf cmp m1 key value values_p h1
                      = Some (m', b, h1) ∧
              sound m' ∧ owned m' h1 ∧ size m' = size m1 ∧
              elements m' = elements m1 + (if b then 0 else 1)).
  { intros m1 h1 Hso1 Hown1 Hroom.
    destruct (insertion_sound m1 key value values_p h1 Hso1 Hroom Hk)
      as (hash & idx & Hh' & Hhr & Hidx & Hp &
          [[Hz Hi]|(v0 & Hv0 & Hne & Hm & Hi)]).
    - eexists _, _. split; [exact Hi|]. split_and!; try done.
      + by apply sound_filled.
      + unfold owned. by rewrite blocks_filled.
    - eexists _, _. split; [exact Hi|]. split_and!; try done.
      + by apply (sound_remapped _ _ v0).
      + simpl. lia. }
  destruct (Z_lt_le_dec (2 * elements m + 1) (size m)) as [Hroom|Hfull].
  - destruct (Hins m h Hso Hown Hroom) as (m' & b & Hi & Hso' & Hown' & Hsz & Hel).
    exists m, h, m', b. split_and!; try done.
    + rewrite generalmapAdd_nogrow; [done|lia..].
    + left. done.
  - destruct (growth_sound m values_p h fuel Hso Hown Hh Hfull Hsmall)
      as (nm & h1 & nm' & m0 & h3 & HI & HM & HF & Hso1 & Hown1 & Hh3 &
          Hsz1 & Hel1 & Hframe).
    pose proof (is_pow2_pos _ (sh_pow2 _ (so_shaped _ Hso))) as Hpos.
    pose proof (so_load _ Hso) as Hload.
    assert (Hroom : 2 * elements nm' + 1 < size nm') by lia.
    destruct (Hins nm' h3 Hso1 Hown1 Hroom)
      as (m' & b & Hi & Hso' & Hown' & Hsz & Hel).
    exists nm', h3, m', b. split_and!; try done.
    + rewrite (generalmapAdd_grow _ _ _ _ _ _ nm h1 nm' h1 m0 h3);
        [done|lia|lia|done..].
    + right. done.
Qed.

(** ** Functional correctness: what a table maps *)

(** Two keys are the same key: equal by the comparator, or identical
    when there is none. *)
Definition keq (a b : Z) : Prop :=
  match cmp with
  | Some c => c a b = Some 0
  | None => a = b
  end.

Hypothesis keq_refl : ∀ a, valid a → keq a a.
Hypothesis keq_sym : ∀ a b, valid a → valid b → keq a b → keq b a.
Hypothesis keq_trans : ∀ a b c,
  valid a → valid b → valid c → keq a b → keq b c → keq a c.
Hypothesis hashf_keq : ∀ a b s,
  valid a → valid b → keq a b → hashf a s = hashf b s.

(** Slot [i] is occupied, by key [k] with value [v]. *)
Definition slot (m : generalmap) (i k v : Z) : Prop :=
  rd (keysInt m) i = Some k ∧ rd (values m) i = Some v ∧ v ≠ 0.

(** The table maps the key [k] to the value [v]. *)
Definition holds (m : generalmap) (k v : Z) : Prop :=
  ∃ i ki, slot m i ki v ∧ keq ki k.

(** The invariant of a table that was only given non-null keys and
    non-null values: every occupied slot is reachable by probing from
    the hash of its key. *)
Record wf (values_p : bool) (m : generalmap) : Prop := Wf {
  wf_sound : sound m;
  wf_count : count_nz (data (values m)) = elements m;
  wf_empty : ∀ i, rd (values m) i = Some 0 → rd (keysInt m) i = Some 0;
  wf_key : ∀ i k v, slot m i k v → k ≠ 0 ∧ valid k;
  wf_hash : ∀ i k v, has_cmp cmp = true → slot m i k v →
            ∃ x, hashf k (size m) = Some x ∧ rd (hashes m) i = Some x;
  wf_chain : ∀ i k v x, slot m i k v → hashf k (size m) = Some x →
             ∀ j, 0 ≤ j < size m →
                  dist (size m) x j < dist (size m) x i →
                  ∃ kj vj, slot m j kj vj ∧ ¬ keq kj k;
  wf_sentinel : values_p = false →
                ∀ i v, rd (values m) i = Some v → v = 0 ∨ v = 1
}.

Lemma keq_dec a b : valid a → valid b → keq a b ∨ ¬ keq a b.
Proof.
  intros Ha Hb. unfold keq. destruct cmp as [c|] eqn:Hc.
  - destruct (cmp_valid c a b eq_refl Ha Hb) as [r Hr]. rewrite Hr.
    destruct (Z.eq_dec r 0) as [->|Hne]; [by left|right; congruence].
  - destruct (Z.eq_dec a b); auto.
Qed.

Lemma slot_range m i k v : sound m → slot m i k v → 0 ≤ i < size m.
Proof.
  intros Hso (Hk & _ & _). destruct (rd_Some _ _ _ Hk) as [_ Hr].
  destruct (sh_keys _ (so_shaped _ Hso)) as [_ Hlen]. lia.
Qed.

Lemma slot_fun m i k v k' v' : slot m i k v → slot m i k' v' → k = k' ∧ v = v'.
Proof. intros (? & ? & _) (? & ? & _). split; congruence. Qed.

Lemma hash_valid' m key :
  shaped m → valid key →
  ∃ hash, hashf key (size m) = Some hash ∧
          int <$> hashf key (size m) = Some hash ∧ 0 ≤ hash < size m.
Proof.
  intros Hs Hk.
  destruct (hashf_valid key (size m) Hk (sh_pow2 _ Hs) (sh_max _ Hs))
    as (x & Hx & Hr).
  exists x. rewrite Hx. simpl. pose proof (sh_max _ Hs) as Hmax.
  rewrite pow2_30 in Hmax.
  rewrite int_id by (change (2 ^ 31) with 2147483648; lia). done.
Qed.

Lemma IsMatch_keq m i k key hash :
  rd (keysInt m) i = Some k →
  generalmapIsMatch cmp m i key hash = Some true → keq k key.
Proof.
  intros Hk. unfold generalmapIsMatch, keq. rewrite Hk.
  destruct cmp as [c|]; simpl.
  - destruct (rd (hashes m) i) as [x|]; simpl; [|done].
    destruct (x =? hash); [|done].
    destruct (c k key) as [r|]; simpl; [|done].
    destruct (Z.eqb_spec r 0) as [->|]; [done|]. intros [=].
  - destruct (Z.eqb_spec k key); [done|]. intros [=].
Qed.

Lemma keq_IsMatch values_p m i k v key hash :
  wf values_p m → slot m i k v → valid key →
  hashf key (size m) = Some hash → keq k key →
  generalmapIsMatch cmp m i key hash = Some true.
Proof.
  intros Hwf Hsl Hkey Hh Hkeq. pose proof Hsl as (Hk & _ & _).
  destruct (wf_key _ _ Hwf _ _ _ Hsl) as [_ Hvk].
  unfold generalmapIsMatch. rewrite Hk.
  destruct cmp as [c|] eqn:Hc; simpl.
  - destruct (wf_hash _ _ Hwf i k v) as (x & Hx & ->);
      [unfold has_cmp; by rewrite Hc|done|].
    simpl. rewrite (hashf_keq k key (size m) Hvk Hkey Hkeq) in Hx.
    replace x with hash by congruence. rewrite Z.eqb_refl.
    unfold keq in Hkeq. rewrite Hc in Hkeq. rewrite Hkeq. done.
  - unfold keq in Hkeq. rewrite Hc in Hkeq. subst. by rewrite Z.eqb_refl.
Qed.

(** Probing for a key of the table stops at its slot. *)
Lemma probe_hit values_p m i k v key hash :
  wf values_p m → slot m i k v → valid key →
  hashf key (size m) = Some hash → keq k key →
  probe cmp m key hash i.
Proof.
  intros Hwf Hsl Hkey Hh Hkeq. pose proof Hsl as (Hk & Hv & Hne).
  destruct (wf_key _ _ Hwf _ _ _ Hsl) as [_ Hvk].
  split.
  - apply stops_true. right. exists v. split_and!; try done.
    by apply (keq_IsMatch values_p _ _ k v).
  - intros j Hj Hd.
    rewrite <- (hashf_keq k key (size m) Hvk Hkey Hkeq) in Hh.
    destruct (wf_chain _ _ Hwf i k v hash Hsl Hh j Hj Hd)
      as (kj & vj & Hslj & Hnk).
    pose proof Hslj as (Hkj & Hvj & Hnej).
    destruct (wf_key _ _ Hwf _ _ _ Hslj) as [_ Hvkj].
    apply stops_false. exists vj. split_and!; try done.
    destruct (stops_defined m j key hash (wf_sound _ _ Hwf) Hkey Hj) as [b Hb].
    destruct b.
    + apply stops_true in Hb as [Hz|(v' & Hv' & _ & Hm)]; [congruence|].
      exfalso. apply Hnk.
      apply (keq_trans kj key k); try done.
      * by apply (IsMatch_keq m j _ _ hash).
      * by apply keq_sym.
    + by apply stops_false in Hb as (v' & _ & _ & Hm).
Qed.

Lemma slot_unique values_p m i k v j k' v' :
  wf values_p m → slot m i k v → slot m j k' v' → keq k k' → i = j.
Proof.
  intros Hwf Hi Hj Hkeq. pose proof (wf_sound _ _ Hwf) as Hso.
  destruct (wf_key _ _ Hwf _ _ _ Hj) as [_ Hvk'].
  destruct (hash_valid' m k' (so_shaped _ Hso) Hvk') as (hash & Hh & _ & Hr).
  apply (probe_unique cmp m k' hash); try done.
  - by apply (slot_range _ _ k v).
  - by apply (slot_range _ _ k' v').
  - by apply (probe_hit values_p _ _ k v).
  - apply (probe_hit values_p _ _ k' v'); try done. by apply keq_refl.
Qed.

Lemma holds_fun values_p m k v v' :
  wf values_p m → valid k → holds m k v → holds m k v' → v = v'.
Proof.
  intros Hwf Hk (i & ki & Hi & Hki) (j & kj & Hj & Hkj).
  destruct (wf_key _ _ Hwf _ _ _ Hi) as [_ Hvi].
  destruct (wf_key _ _ Hwf _ _ _ Hj) as [_ Hvj].
  assert (i = j) as ->.
  { apply (slot_unique values_p m i ki v j kj v'); try done.
    apply (keq_trans ki k kj); try done. by apply keq_sym. }
  by destruct (slot_fun _ _ _ _ _ _ Hi Hj).
Qed.

(** What the probe slot of a key tells. *)
Lemma probe_result values_p m key hash idx :
  wf values_p m → valid key → hashf key (size m) = Some hash →
  0 ≤ hash < size m → 0 ≤ idx < size m → probe cmp m key hash idx →
  (rd (values m) idx = Some 0 ∧ ∀ v, ¬ holds m key v) ∨
  (∃ k v, slot m idx k v ∧ keq k key).
Proof.
  intros Hwf Hkey Hh Hhr Hidx Hp. pose proof (wf_sound _ _ Hwf) as Hso.
  pose proof Hp as [Hst _].
  apply stops_true in Hst as [Hz|(v & Hv & Hne & Hm)].
  - left. split; [done|]. intros v (i & ki & Hi & Hki).
    assert (i = idx) as ->.
    { apply (probe_unique cmp m key hash); try done.
      - by apply (slot_range _ _ ki v).
      - by apply (probe_hit values_p _ _ ki v). }
    destruct Hi as (_ & Hv & Hne). congruence.
  - right.
    destruct (rd_good _ _ idx (sh_keys _ (so_shaped _ Hso)) Hidx) as [k Hk].
    exists k, v. split; [done|]. by apply (IsMatch_keq m idx _ _ hash).
Qed.

(** [generalmapMap] and [generalmapTest] on a key of the table. *)
Lemma generalmapMap_holds values_p m key v :
  wf values_p m → valid key → holds m key v →
  generalmapMap hashf cmp m key = Some v ∧
  generalmapTest hashf cmp m key = Some true.
Proof.
  intros Hwf Hkey (i & ki & Hi & Hki). pose proof (wf_sound _ _ Hwf) as Hso.
  destruct (hash_valid' m key (so_shaped _ Hso) Hkey) as (hash & Hh & Hh' & Hr).
  pose proof (slot_range _ _ _ _ Hso Hi) as Hir.
  pose proof (probe_hit values_p _ _ _ _ key hash Hwf Hi Hkey Hh Hki) as Hpi.
  pose proof (sound_elements m Hso) as He. pose proof (so_load _ Hso) as Hl.
  pose proof (sh_values _ (so_shaped _ Hso)) as [_ Hlen].
  assert (elements m < size m) as Hroom
    by (pose proof (is_pow2_pos _ (sh_pow2 _ (so_shaped _ Hso))); lia).
  destruct (generalmapFind_probe m key hash Hso Hkey Hr Hroom)
    as (idx & HF & Hidx & Hp).
  assert (idx = i) as -> by (by apply (probe_unique cmp m key hash)).
  unfold generalmapMap, generalmapTest. rewrite Hh'. simpl. rewrite HF. simpl.
  rewrite (keq_IsMatch values_p m i ki v key hash) by done. simpl.
  split; [|done]. by destruct Hi as (_ & ? & _).
Qed.

Lemma slot_filled m key hash idx v i k' v' :
  sound m → 0 ≤ idx < size m →
  slot (filled m key hash idx v) i k' v' ↔
  (i = idx ∧ k' = key ∧ v' = v ∧ v ≠ 0) ∨ (i ≠ idx ∧ slot m i k' v').
Proof.
  intros Hso Hidx. pose proof (so_shaped _ Hso) as Hs.
  unfold slot, filled. simpl. destruct (Z.eq_dec i idx) as [->|Hne].
  - rewrite (rd_upd_eq _ (size m)) by (done || apply Hs).
    rewrite (rd_upd_eq _ (size m)) by (done || apply Hs).
    split.
    + intros ([= <-] & [= <-] & Hv). left. done.
    + intros [(_ & -> & -> & Hv)|[Hn _]]; done.
  - rewrite !rd_upd_ne by lia. split.
    + intros H. right. done.
    + intros [[Hn _]|[_ H]]; done.
Qed.

Lemma slot_remapped m idx v i k' v' :
  sound m → 0 ≤ idx < size m →
  slot (remapped m idx v) i k' v' ↔
  (i = idx ∧ rd (keysInt m) idx = Some k' ∧ v' = v ∧ v ≠ 0) ∨
  (i ≠ idx ∧ slot m i k' v').
Proof.
  intros Hso Hidx. pose proof (so_shaped _ Hso) as Hs.
  unfold slot, remapped. simpl. destruct (Z.eq_dec i idx) as [->|Hne].
  - rewrite (rd_upd_eq _ (size m)) by (done || apply Hs).
    split.
    + intros (Hk & [= <-] & Hv). left. done.
    + intros [(_ & Hk & -> & Hv)|[Hn _]]; done.
  - rewrite !rd_upd_ne by lia. split.
    + intros H. right. done.
    + intros [[Hn _]|[_ H]]; done.
Qed.

Lemma nz_1 v : v ≠ 0 → nz v = 1.
Proof. intros Hv. unfold nz. by destruct (Z.eqb_spec v 0). Qed.

Lemma wf_filled values_p m key hash idx v :
  wf values_p m → 2 * elements m + 1 < size m →
  valid key → key ≠ 0 → hashf key (size m) = Some hash →
  0 ≤ idx < size m → probe cmp m key hash idx →
  rd (values m) idx = Some 0 →
  v ≠ 0 → (values_p = false → v = 1) →
  wf values_p (filled m key hash idx v).
Proof.
  intros Hwf Hroom Hkey Hk0 Hh Hidx Hp Hz Hv Hsen.
  pose proof (wf_sound _ _ Hwf) as Hso. pose proof (so_shaped _ Hso) as Hs.
  assert (Hold : ∀ j kj vj, slot m j kj vj →
                   slot (filled m key hash idx v) j kj vj).
  { intros j kj vj Hj. apply slot_filled; try done. right. split; [|done].
    intros ->. destruct Hj as (_ & Hvj & Hne). congruence. }
  constructor.
  - by apply sound_filled.
  - simpl. rewrite (count_nz_insert _ _ 0) by (by apply rd_lookup).
    rewrite (nz_1 v Hv). change (nz 0) with 0. rewrite (wf_count _ _ Hwf). lia.
  - intros i. simpl. destruct (Z.eq_dec i idx) as [->|Hne].
    + rewrite (rd_upd_eq _ (size m)) by (done || apply Hs). congruence.
    + rewrite !rd_upd_ne by lia. apply (wf_empty _ _ Hwf).
  - intros i k' v' [(-> & -> & -> & _)|[_ Hsl]]%slot_filled; try done.
    by apply (wf_key _ _ Hwf i k' v').
  - intros i k' v' Hc [(-> & -> & -> & _)|[Hne Hsl]]%slot_filled; try done.
    + exists hash. split; [done|]. simpl. rewrite Hc.
      apply (rd_upd_eq _ (size m)); [|done]. by apply Hs.
    + destruct (wf_hash _ _ Hwf i k' v' Hc Hsl) as (x & Hx & Hr).
      exists x. split; [done|]. simpl. rewrite Hc. by rewrite rd_upd_ne by lia.
  - intros i k' v' x [(-> & -> & -> & _)|[Hne Hsl]]%slot_filled Hx j Hj Hd;
      try done; simpl in *.
    + replace x with hash in * by congruence.
      destruct Hp as [_ Hbefore].
      pose proof (Hbefore j Hj Hd) as Hb.
      apply stops_false in Hb as (vj & Hvj & Hnej & Hm).
      destruct (rd_good _ _ j (sh_keys _ Hs) Hj) as [kj Hkj].
      exists kj, vj. split; [by apply Hold|].
      intros Hkeq.
      rewrite (keq_IsMatch values_p m j kj vj key hash) in Hm by done. done.
    + destruct (wf_chain _ _ Hwf i k' v' x Hsl Hx j Hj Hd)
        as (kj & vj & Hslj & Hnk).
      exists kj, vj. split; [by apply Hold|done].
  - intros Hvp i v'. simpl. destruct (Z.eq_dec i idx) as [->|Hne].
    + rewrite (rd_upd_eq _ (size m)) by (done || apply Hs).
      intros [= <-]. right. auto.
    + rewrite rd_upd_ne by lia. by apply (wf_sentinel _ _ Hwf).
Qed.

Lemma wf_remapped values_p m idx k v0 v :
  wf values_p m → 0 ≤ idx < size m → slot m idx k v0 →
  v ≠ 0 → (values_p = false → v = 1) →
  wf values_p (remapped m idx v).
Proof.
  intros Hwf Hidx Hsl Hv Hsen.
  pose proof (wf_sound _ _ Hwf) as Hso. pose proof (so_shaped _ Hso) as Hs.
  pose proof Hsl as (Hk & Hv0 & Hne0).
  assert (Hold : ∀ j kj vj, slot m j kj vj →
                   ∃ vj', slot (remapped m idx v) j kj vj').
  { intros j kj vj Hj. destruct (Z.eq_dec j idx) as [->|Hne].
    - exists v. apply slot_remapped; try done. left.
      destruct Hj as (? & _). done.
    - exists vj. apply slot_remapped; try done. right. done. }
  assert (Hnew : ∀ j kj vj, slot (remapped m idx v) j kj vj →
                   ∃ vj', slot m j kj vj').
  { intros j kj vj [(-> & Hkj & _)|[_ Hj]]%slot_remapped; try done.
    - exists v0. done.
    - by exists vj. }
  constructor.
  - by apply (sound_remapped _ _ v0).
  - simpl. rewrite (count_nz_insert _ _ v0) by (by apply rd_lookup).
    rewrite (nz_1 v Hv), (nz_1 v0 Hne0), (wf_count _ _ Hwf). lia.
  - intros i. simpl. destruct (Z.eq_dec i idx) as [->|Hne].
    + rewrite (rd_upd_eq _ (size m)) by (done || apply Hs). congruence.
    + rewrite !rd_upd_ne by lia. apply (wf_empty _ _ Hwf).
  - intros i k' v' [v'' Hi]%Hnew. by apply (wf_key _ _ Hwf i k' v'').
  - intros i k' v' Hc [v'' Hi]%Hnew. by apply (wf_hash _ _ Hwf i k' v'').
  - intros i k' v' x [v'' Hi]%Hnew Hx j Hj Hd. simpl in *.
    destruct (wf_chain _ _ Hwf i k' v'' x Hi Hx j Hj Hd)
      as (kj & vj & Hslj & Hnk).
    destruct (Hold j kj vj Hslj) as [vj' Hj'].
    exists kj, vj'. done.
  - intros Hvp i v'. simpl. destruct (Z.eq_dec i idx) as [->|Hne].
    + rewrite (rd_upd_eq _ (size m)) by (done || apply Hs).
      intros [= <-]. right. auto.
    + rewrite rd_upd_ne by lia. by apply (wf_sentinel _ _ Hwf).
Qed.

(** [insertion] into a well-formed table with room: the flag tells
    whether the key was there, and the table now maps the key to the
    stored value and every other key as before. *)
Lemma insertion_wf values_p m key value h :
  wf values_p m → 2 * elements m + 1 < size m →
  valid key → key ≠ 0 → stored values_p value ≠ 0 →
  ∃ m' b, insertion hashf cmp m key value values_p h = Some (m', b, h) ∧
    wf values_p m' ∧ size m' = size m ∧ blocks m' = blocks m ∧
    (b = true ↔ ∃ v, holds m key v) ∧
    elements m' = elements m + (if b then 0 else 1) ∧
    (∀ k' v', valid k' →
       holds m' k' v' ↔
       (keq key k' ∧ v' = stored values_p value) ∨
       (¬ keq key k' ∧ holds m k' v')).
Proof.
  intros Hwf Hroom Hkey Hk0 Hst.
  pose proof (wf_sound _ _ Hwf) as Hso. pose proof (so_shaped _ Hso) as Hs.
  assert (Hsen : values_p = false → stored values_p value = 1)
    by (by intros ->).
  destruct (hash_valid' m key Hs Hkey) as (hash0 & Hh & Hh0 & _).
  destruct (insertion_sound m key value values_p h Hso Hroom Hkey)
    as (hash & idx & Hh' & Hhr & Hidx & Hp & Hcase).
  assert (hash0 = hash) as -> by congruence.
  destruct (probe_result values_p m key hash idx Hwf Hkey Hh Hhr Hidx Hp)
    as [[Hz Habs]|(k & v0 & Hsl & Hkeq)].
  - (* the key is new *)
    destruct Hcase as [[_ Hi]|(v & Hv & Hne & _)]; [|congruence].
    eexists _, false. split; [exact Hi|]. split_and!.
    + by apply wf_filled.
    + done.
    + apply blocks_filled.
    + split; [done|]. intros [v Hv]. by destruct (Habs v).
    + simpl. lia.
    + intros k' v' Hk'. split.
      * intros (i & ki & [(-> & -> & -> & _)|[Hne Hi']]%slot_filled & Hki);
          try done; [by left|].
        right. destruct (wf_key _ _ Hwf _ _ _ Hi') as [_ Hvi]. split.
        -- intros Hkk. apply (Habs v'). exists i, ki. split; [done|].
           apply (keq_trans ki k' key); try done. by apply keq_sym.
        -- by exists i, ki.
      * intros [[Hkk ->]|[Hnk (i & ki & Hi' & Hki)]].
        -- exists idx, key. split; [|done]. apply slot_filled; try done.
           left. done.
        -- exists i, ki. split; [|done]. apply slot_filled; try done.
           right. split; [|done]. intros ->.
           destruct Hi' as (_ & ? & ?). congruence.
  - (* the key is there *)
    destruct Hcase as [[Hz _]|(v & Hv & Hne & Hm & Hi)].
    { destruct Hsl as (_ & ? & ?). congruence. }
    destruct (wf_key _ _ Hwf _ _ _ Hsl) as [_ Hvk].
    pose proof Hsl as (Hk & _ & _).
    eexists _, true. split; [exact Hi|]. split_and!.
    + by apply (wf_remapped _ _ _ k v0).
    + done.
    + done.
    + split; [|done]. intros _. exists v0, idx, k. done.
    + simpl. lia.
    + intros k' v' Hk'. split.
      * intros (i & ki & [(-> & Hki0 & -> & _)|[Hne' Hi']]%slot_remapped & Hki);
          try done.
        -- left. split; [|done]. replace ki with k in * by congruence.
           apply (keq_trans key k k'); try done. by apply keq_sym.
        -- right. destruct (wf_key _ _ Hwf _ _ _ Hi') as [_ Hvi]. split.
           ++ intros Hkk. apply Hne'.
              apply (slot_unique values_p m i ki v' idx k v0); try done.
              apply (keq_trans ki key k); try done; [|by apply keq_sym].
              apply (keq_trans ki k' key); try done. by apply keq_sym.
           ++ by exists i, ki.
      * intros [[Hkk ->]|[Hnk (i & ki & Hi' & Hki)]].
        -- exists idx, k. split.
           ++ apply slot_remapped; try done. left. done.
           ++ by apply (keq_trans k key k').
        -- exists i, ki. split; [|done]. apply slot_remapped; try done.
           right. split; [|done]. intros ->.
           destruct (slot_fun _ _ _ _ _ _ Hsl Hi') as [<- _].
           apply Hnk. apply (keq_trans key k k'); try done. by apply keq_sym.
Qed.

Lemma generalmapInit_wf values_p hint h :
  1 ≤ hint ≤ 2 ^ 30 → heap_ok h →
  ∃ m h', generalmapInit hint calloc (has_cmp cmp) h = (m, h') ∧
    size m = pow2ize hint ∧ elements m = 0 ∧
    wf values_p m ∧ owned m h' ∧ heap_ok h' ∧ (∀ k v, ¬ holds m k v).
Proof.
  intros Hhint Hh.
  destruct (generalmapInit_sound hint h Hhint Hh)
    as (m & h' & HI & Hsz & He & Hso & Ho & Hh' & HV & HK & _ & _).
  assert (Hrange : ∀ a i v, good a (size m) → rd a i = Some v → 0 ≤ i < size m).
  { intros a i v [_ Hlen] Hrd. destruct (rd_Some _ _ _ Hrd). lia. }
  assert (Hnone : ∀ i k v, ¬ slot m i k v).
  { intros i k v (_ & Hv & Hne).
    pose proof (Hrange _ _ _ (sh_values _ (so_shaped _ Hso)) Hv) as Hi.
    rewrite (HV i Hi) in Hv. congruence. }
  exists m, h'. split_and!; try done.
  - constructor; try done.
    + destruct (generalmapInit_spec hint h Hhint Hh)
        as (m2 & h2 & HI2 & _ & _ & _ & Hv & _).
      rewrite HI in HI2. injection HI2 as <- <-.
      rewrite Hv, count_nz_replicate. lia.
    + intros i Hi. apply HK.
      by apply (Hrange _ _ _ (sh_values _ (so_shaped _ Hso)) Hi).
    + intros i k v Hsl. by destruct (Hnone i k v).
    + intros i k v _ Hsl. by destruct (Hnone i k v).
    + intros i k v x Hsl. by destruct (Hnone i k v).
    + intros _ i v Hv. left.
      pose proof (Hrange _ _ _ (sh_values _ (so_shaped _ Hso)) Hv) as Hi.
      rewrite (HV i Hi) in Hv. congruence.
  - intros k v (i & ki & Hsl & _). by destruct (Hnone i ki v).
Qed.

(** Growth copies a well-formed table exactly. *)
Lemma growth_wf values_p m h fuel :
  wf values_p m → owned m h → heap_ok h →
  size m ≤ 2 * elements m + 1 → elements m < 2 ^ 28 →
  ∃ nm h1 nm' m0 h3,
    generalmapInit (int (size m * 2)) calloc (has_cmp cmp) h = (nm, h1) ∧
    generalmapMerge hashf cmp (S fuel) nm m None values_p h1
      = Some (nm', h1) ∧
    generalmapFree m (has_cmp cmp) h1 = Some (m0, h3) ∧
    wf values_p nm' ∧ owned nm' h3 ∧ heap_ok h3 ∧
    size nm' = 2 * size m ∧ elements nm' = elements m ∧
    (∀ k v, valid k → holds nm' k v ↔ holds m k v).
Proof.
  intros Hwf Hown Hh Hfull Hsmall. pose proof (wf_sound _ _ Hwf) as Hso.
  destruct (growth_sound m values_p h fuel Hso Hown Hh Hfull Hsmall)
    as (nm & h1 & nm' & m0 & h3 & HI & HM & HF & _ & Hown' & Hh3 & Hsz & _ & _).
  exists nm, h1, nm', m0, h3.
  cut (wf values_p nm' ∧ elements nm' = elements m ∧
       ∀ k v, valid k → holds nm' k v ↔ holds m k v).
  { intros (? & ? & ?). split_and!; done. }
  pose proof (sound_elements m Hso) as [He0 _].
  pose proof Hso as [Hs Hload _ _ _].
  pose proof (is_pow2_pos _ (sh_pow2 _ Hs)) as Hpos.
  pose proof (wf_count _ _ Hwf) as Hcount.
  change (2 ^ 28) with 268435456 in Hsmall.
  rewrite int_id in HI by (change (2 ^ 31) with 2147483648; lia).
  destruct (generalmapInit_wf values_p (size m * 2) h)
    as (nm2 & h2 & HI2 & Hsz2 & Hel2 & Hwf2 & _ & _ & Hnone);
    [rewrite pow2_30; lia|done|].
  rewrite HI in HI2. injection HI2 as <- <-.
  rewrite pow2ize_pow2 in Hsz2;
    [|replace (size m * 2) with (2 * size m) by lia;
      apply is_pow2_double, Hs|rewrite pow2_30; lia].
  set (P := λ (j : Z) (dest : generalmap) (h' : heap),
         h' = h1 ∧ wf values_p dest ∧ size dest = size m * 2 ∧
         elements dest = count_nz (take (Z.to_nat j) (data (values m))) ∧
         (∀ k v, valid k →
            holds dest k v ↔ ∃ i ki, 0 ≤ i < j ∧ slot m i ki v ∧ keq ki k)).
  destruct (merge_loop_rule P
              (λ d k v h', generalmapAdd hashf cmp (S fuel) d k v values_p h')
              None values_p m) with (n := Z.to_nat (size m)) (i := 0)
              (dest := nm) (h := h1)
    as (nm2 & h2 & HM2 & _ & Hwf' & _ & Hel' & Hcont); [|lia|lia| |].
  - (* the loop body *)
    intros j dest h' Hj (-> & Hwd & Hszd & Hed & Hcd).
    destruct (rd_good _ _ j (sh_keys _ Hs) Hj) as [k Hk]. exists k.
    split; [done|].
    destruct (rd_good _ _ j (sh_values _ Hs) Hj) as [v Hv].
    pose proof (count_nz_take_S _ _ _ (rd_lookup _ _ _ Hv)) as Hcnt.
    replace (S (Z.to_nat j)) with (Z.to_nat (j + 1)) in Hcnt by lia.
    pose proof (count_nz_take_le (data (values m)) (Z.to_nat (j + 1))) as Hle.
    destruct (Z.eqb_spec k 0) as [->|Hk0].
    + assert (v = 0) as ->.
      { destruct (Z.eq_dec v 0) as [|Hv0]; [done|].
        by destruct (wf_key _ _ Hwf j 0 v). }
      unfold P. split_and!; try done.
      { change (nz 0) with 0 in Hcnt. lia. }
      intros k' v' Hk'. rewrite (Hcd k' v' Hk'). split.
      * intros (i & ki & Hi & Hsl & Hki). exists i, ki.
        split_and!; (done || lia).
      * intros (i & ki & Hi & Hsl & Hki). exists i, ki.
        split_and!; try done; [lia|].
        destruct (Z.eq_dec i j) as [->|]; [|lia].
        destruct Hsl as (_ & ? & ?). congruence.
    + assert (v ≠ 0) as Hv0.
      { intros ->. pose proof (wf_empty _ _ Hwf j Hv). congruence. }
      assert (Hsl : slot m j k v) by done.
      destruct (wf_key _ _ Hwf _ _ _ Hsl) as [_ Hvk].
      rewrite (nz_1 v Hv0) in Hcnt.
      assert (Hst : stored values_p (if values_p then v else 0) = v).
      { destruct values_p eqn:Hvp; [done|].
        destruct (wf_sentinel _ _ Hwf eq_refl j v Hv); simpl; lia. }
      assert (Hroom : 2 * elements dest + 1 < size dest) by lia.
      destruct (insertion_wf values_p dest k (if values_p then v else 0) h1
                  Hwd Hroom Hvk Hk0)
        as (dest' & b & Hins & Hwd' & Hszd' & _ & Hb & Hel & Hcd');
        [by rewrite Hst|].
      rewrite Hst in Hcd'.
      assert (b = false) as ->.
      { destruct b; [|done]. exfalso.
        destruct (proj1 Hb eq_refl) as [v' Hv'].
        apply Hcd in Hv' as (i & ki & Hi & Hsli & Hki); [|done].
        assert (i = j) by (by apply (slot_unique values_p m i ki v' j k v)).
        lia. }
      exists (if values_p then v else 0), dest', false, h1.
      split; [by destruct values_p|]. split.
      { rewrite generalmapAdd_nogrow; [done| |lia|].
        - pose proof (sound_elements dest (wf_sound _ _ Hwd)). lia.
        - rewrite Hszd, pow2_30. lia. }
      unfold P. split_and!; try done; [lia..|].
      intros k' v' Hk'. rewrite (Hcd' k' v' Hk'). split.
      * intros [[Hkk ->]|[Hnk Hold]].
        -- exists j, k. split_and!; (done || lia).
        -- apply Hcd in Hold as (i & ki & Hi & Hsli & Hki); [|done].
           exists i, ki. split_and!; (done || lia).
      * intros (i & ki & Hi & Hsli & Hki).
        destruct (Z.eq_dec i j) as [->|Hne].
        -- destruct (slot_fun _ _ _ _ _ _ Hsl Hsli) as [<- <-]. by left.
        -- right. split.
           ++ intros Hkk. apply Hne.
              destruct (wf_key _ _ Hwf _ _ _ Hsli) as [_ Hvi].
              apply (slot_unique values_p m i ki v' j k v); try done.
              apply (keq_trans ki k' k); try done. by apply keq_sym.
           ++ apply Hcd; [done|]. exists i, ki. split_and!; (done || lia).
  - (* the loop starts from the fresh table *)
    unfold P. split_and!; try done.
    intros k' v' Hk'. split.
    + intros Hx. by destruct (Hnone k' v').
    + intros (i & ki & Hi & _). lia.
  - (* what the loop gives *)
    unfold generalmapMerge in HM. rewrite HM in HM2. injection HM2 as <- <-.
    split_and!; try done.
    + rewrite Hel'. rewrite take_ge; [done|].
      destruct (sh_values _ Hs) as [_ Hlen]. lia.
    + intros k v Hk. rewrite (Hcont k v Hk). split.
      * intros (i & ki & _ & Hsl & Hki). by exists i, ki.
      * intros (i & ki & Hsl & Hki). exists i, ki. split_and!; try done;
          by apply (slot_range m i ki v).
Qed.

(** [generalmapAdd] on a well-formed table. *)
Lemma generalmapAdd_wf values_p m key value h fuel :
  wf values_p m → owned m h → heap_ok h → elements m < 2 ^ 28 →
  valid key → key ≠ 0 → stored values_p value ≠ 0 →
  ∃ m' b h',
    generalmapAdd hashf cmp (S (S fuel)) m key value values_p h
      = Some (m', b, h') ∧
    wf values_p m' ∧ owned m' h' ∧ heap_ok h' ∧
    (if decide (2 * elements m + 1 < size m)
     then size m' = size m else size m' = 2 * size m) ∧
    (b = true ↔ ∃ v, holds m key v) ∧
    elements m' = elements m + (if b then 0 else 1) ∧
    (∀ k' v', valid k' →
       holds m' k' v' ↔
       (keq key k' ∧ v' = stored values_p value) ∨
       (¬ keq key k' ∧ holds m k' v')).
Proof.
  intros Hwf Hown Hh Hsmall Hkey Hk0 Hst.
  pose proof (wf_sound _ _ Hwf) as Hso.
  pose proof (sound_elements m Hso) as He.
  pose proof (sh_max _ (so_shaped _ Hso)) as Hmax.
  destruct (decide (2 * elements m + 1 < size m)) as [Hroom|Hfull].
  - destruct (insertion_wf values_p m key value h Hwf Hroom Hkey Hk0 Hst)
      as (m' & b & Hi & Hwf' & Hsz & Hbl & Hb & Hel & Hc).
    exists m', b, h. split_and!; try done.
    + rewrite generalmapAdd_nogrow; [done|lia..].
    + unfold owned. by rewrite Hbl.
  - destruct (growth_wf values_p m h fuel Hwf Hown Hh) as
      (nm & h1 & nm' & m0 & h3 & HI & HM & HF & Hwf1 & Hown1 & Hh3 &
       Hsz1 & Hel1 & Hc1); [lia|done|].
    pose proof (is_pow2_pos _ (sh_pow2 _ (so_shaped _ Hso))) as Hpos.
    pose proof (so_load _ Hso) as Hload.
    assert (Hroom : 2 * elements nm' + 1 < size nm') by lia.
    destruct (insertion_wf values_p nm' key value h3 Hwf1 Hroom Hkey Hk0 Hst)
      as (m' & b & Hi & Hwf' & Hsz & Hbl & Hb & Hel & Hc).
    exists m', b, h3. split_and!; try done.
    + rewrite (generalmapAdd_grow _ _ _ _ _ _ nm h1 nm' h1 m0 h3);
        [done|lia|lia|done..].
    + unfold owned. by rewrite Hbl.
    + lia.
    + rewrite Hb. split; intros [v Hv]; exists v; by apply Hc1.
    + lia.
    + intros k' v' Hk'. rewrite (Hc k' v' Hk'), (Hc1 k' v' Hk'). done.
Qed.

(** A sequence of [generalmapAdd] calls with non-null keys and values
    keeps the table well-formed; the keys it then maps are those it
    mapped and those that were added. *)
Lemma adds_wf values_p fuel kvs : ∀ m h,
  wf values_p m → owned m h → heap_ok h →
  elements m + Z.of_nat (length kvs) ≤ 2 ^ 28 →
  (∀ k v, (k, v) ∈ kvs → valid k ∧ k ≠ 0 ∧ stored values_p v ≠ 0) →
  ∃ m' h',
    adds hashf cmp (S (S fuel)) kvs values_p m h = Some (m', h') ∧
    wf values_p m' ∧ owned m' h' ∧ heap_ok h' ∧
    elements m' ≤ elements m + Z.of_nat (length kvs) ∧
    (∀ k, valid k →
       (∃ v, holds m' k v) ↔
       (∃ v, holds m k v) ∨ ∃ k0 v0, (k0, v0) ∈ kvs ∧ keq k0 k).
Proof.
  induction kvs as [|[k0 v0] kvs IH]; intros m h Hwf Hown Hh Hlen Hok.
  - exists m, h. split_and!; try done; [simpl; lia|].
    intros k Hk. split; [auto|]. intros [?|(? & ? & []%elem_of_nil & _)]. done.
  - simpl in Hlen.
    destruct (Hok k0 v0) as (Hk0 & Hne0 & Hst0); [apply elem_of_cons; auto|].
    destruct (generalmapAdd_wf values_p m k0 v0 h fuel Hwf Hown Hh)
      as (m1 & b & h1 & HA & Hwf1 & Hown1 & Hh1 & _ & Hb & Hel & Hc);
      [lia|done..|].
    destruct (IH m1 h1 Hwf1 Hown1 Hh1) as
      (m' & h' & HR & Hwf' & Hown' & Hh' & Hel' & Hc').
    { destruct b; lia. }
    { intros k v Hin. apply Hok. apply elem_of_cons. auto. }
    exists m', h'. cbn [adds]. rewrite HA. simpl. split_and!; try done.
    { simpl. destruct b; lia. }
    intros k Hk. rewrite (Hc' k Hk). split.
    + intros [[v Hv]|(k1 & v1 & Hin & Hkk)].
      * apply Hc in Hv as [[Hkk _]|[_ Hv]]; [| |done].
        -- right. exists k0, v0. split; [apply elem_of_cons; auto|done].
        -- left. by exists v.
      * right. exists k1, v1. split; [apply elem_of_cons; auto|done].
    + intros [[v Hv]|(k1 & v1 & [[= -> ->]|Hin]%elem_of_cons & Hkk)].
      * destruct (keq_dec k0 k Hk0 Hk) as [Hkk|Hnk].
        -- left. exists (stored values_p v0). apply Hc; auto.
        -- left. exists v. apply Hc; auto.
      * left. exists (stored values_p v0). apply Hc; auto.
      * right. by exists k1, v1.
Qed.

(** ** Tables in use *)

(** [generalmapMerge] into a sound table. *)
Lemma generalmapMerge_sound dest src dup values_p h fuel :
  sound dest → owned dest h → heap_ok h → sound src →
  (∀ d k, dup = Some d → valid k → valid (d k)) →
  elements dest + size src ≤ 2 ^ 28 →
  ∃ dest' h',
    generalmapMerge hashf cmp (S (S fuel)) dest src dup values_p h
      = Some (dest', h') ∧
    sound dest' ∧ owned dest' h' ∧ heap_ok h' ∧
    elements dest' ≤ elements dest + size src.
Proof.
  intros Hsd Hown Hh Hss Hdup Hsmall.
  pose proof (so_shaped _ Hss) as Hs.
  pose proof (is_pow2_pos _ (sh_pow2 _ Hs)) as Hpos.
  set (P := λ (j : Z) (d : generalmap) (h' : heap),
         sound d ∧ owned d h' ∧ heap_ok h' ∧ elements d ≤ elements dest + j).
  destruct (merge_loop_rule P
              (λ d k v h', generalmapAdd hashf cmp (S (S fuel)) d k v values_p h')
              dup values_p src) with (n := Z.to_nat (size src)) (i := 0)
              (dest := dest) (h := h)
    as (dest' & h' & HM & Hsd' & Hown' & Hh' & Hel); [|lia|lia| |].
  - intros j d h' Hj (Hd & Hod & Hhd & Hed).
    destruct (rd_good _ _ j (sh_keys _ Hs) Hj) as [k Hk]. exists k.
    split; [done|]. destruct (Z.eqb_spec k 0) as [->|Hk0].
    { unfold P. split_and!; try done. lia. }
    assert (valid k) as Hvk
      by (destruct (so_valid _ Hss j k Hk) as [[? _]|?]; done).
    assert (valid (match dup with Some d0 => d0 k | None => k end)) as Hvk'.
    { destruct dup as [d0|]; [|done]. by apply (Hdup d0). }
    assert (∃ v, (if values_p then rd (values src) j else Some 0) = Some v)
      as [v Hv].
    { destruct values_p; [apply (rd_good _ _ j (sh_values _ Hs) Hj)|eauto]. }
    destruct (generalmapAdd_sound d
                (match dup with Some d0 => d0 k | None => k end)
                v values_p h' fuel Hd Hod Hhd)
      as (m1 & h1 & m' & b & HA & _ & Hcase & _ & _ & Hsm' & Hom' & Hh1 &
          Hsz & Hel & _); [lia|done|].
    exists v, m', b, h1. split_and!; try done.
    unfold P. split_and!; try done.
    destruct Hcase as [(_ & -> & _)|(_ & _ & Hle)]; destruct b; lia.
  - unfold P. split_and!; try done. lia.
  - exists dest', h'. unfold generalmapMerge. split_and!; try done.
Qed.

(** The tables a program can hold: made by [generalmapInit], then
    changed by [generalmapAdd] and [generalmapMerge] only. *)
Inductive reachable : generalmap → heap → Prop :=
  | reach_init hint h m h' :
      1 ≤ hint ≤ 2 ^ 30 → heap_ok h →
      generalmapInit hint calloc (has_cmp cmp) h = (m, h') →
      reachable m h'
  | reach_add m h fuel key value values_p m' b h' :
      reachable m h → valid key → elements m < 2 ^ 28 →
      generalmapAdd hashf cmp (S (S fuel)) m key value values_p h
        = Some (m', b, h') →
      reachable m' h'
  | reach_merge dest h src hs fuel dup values_p dest' h' :
      reachable dest h → reachable src hs →
      (∀ d k, dup = Some d → valid k → valid (d k)) →
      elements dest + size src ≤ 2 ^ 28 →
      generalmapMerge hashf cmp (S (S fuel)) dest src dup values_p h
        = Some (dest', h') →
      reachable dest' h'.

Lemma reachable_sound m h : reachable m h → sound m ∧ owned m h ∧ heap_ok h.
Proof.
  induction 1 as [hint h m h' Hhint Hh HI
                 |m h fuel key value values_p m' b h' _ IH Hk He HA
                 |dest h src hs fuel dup values_p dest' h' _ IHd _ IHs Hdup He HM].
  - destruct (generalmapInit_sound hint h Hhint Hh)
      as (m2 & h2 & HI2 & _ & _ & Hso & Ho & Hh' & _).
    rewrite HI in HI2. injection HI2 as <- <-. done.
  - destruct IH as (Hso & Ho & Hh).
    destruct (generalmapAdd_sound m key value values_p h fuel Hso Ho Hh He Hk)
      as (m1 & h1 & m2 & b2 & HA2 & _ & _ & _ & _ & Hso' & Ho' & Hh' & _).
    rewrite HA in HA2. injection HA2 as <- <- <-. done.
  - destruct IHd as (Hso & Ho & Hh). destruct IHs as (Hss & _ & _).
    destruct (generalmapMerge_sound dest src dup values_p h fuel
                Hso Ho Hh Hss Hdup He)
      as (d2 & h2 & HM2 & Hso' & Ho' & Hh' & _).
    rewrite HM in HM2. injection HM2 as <- <-. done.
Qed.

(** The keys of the pairs are pairwise distinct. *)
Fixpoint distinct_keys (kvs : list (Z * Z)) : Prop :=
  match kvs with
  | [] => True
  | (k, _) :: kvs' =>
      (∀ k' v', (k', v') ∈ kvs' → ¬ keq k k') ∧ distinct_keys kvs'
  end.

Lemma adds_distinct values_p fuel kvs : ∀ m h,
  wf values_p m → owned m h → heap_ok h →
  elements m + Z.of_nat (length kvs) ≤ 2 ^ 28 →
  (∀ k v, (k, v) ∈ kvs → valid k ∧ k ≠ 0 ∧ stored values_p v ≠ 0) →
  distinct_keys kvs →
  (∀ k v, (k, v) ∈ kvs → ∀ v', ¬ holds m k v') →
  ∃ m' h',
    adds hashf cmp (S (S fuel)) kvs values_p m h = Some (m', h') ∧
    wf values_p m' ∧
    elements m' = elements m + Z.of_nat (length kvs) ∧
    (∀ k v, valid k → holds m k v → holds m' k v) ∧
    (∀ k v, (k, v) ∈ kvs → holds m' k (stored values_p v)).
Proof.
  induction kvs as [|[k0 v0] kvs IH]; intros m h Hwf Hown Hh Hlen Hok Hd Habs.
  - exists m, h. split_and!; try done; [simpl; lia|].
    intros k v []%elem_of_nil.
  - simpl in Hlen. destruct Hd as [Hd0 Hd].
    destruct (Hok k0 v0) as (Hk0 & Hne0 & Hst0); [apply elem_of_cons; auto|].
    destruct (generalmapAdd_wf values_p m k0 v0 h fuel Hwf Hown Hh)
      as (m1 & b & h1 & HA & Hwf1 & Hown1 & Hh1 & _ & Hb & Hel & Hc);
      [lia|done..|].
    assert (b = false) as ->.
    { destruct b; [|done]. destruct (proj1 Hb eq_refl) as [v Hv].
      destruct (Habs k0 v0 ltac:(apply elem_of_cons; auto) v Hv). }
    destruct (IH m1 h1 Hwf1 Hown1 Hh1) as
      (m' & h' & HR & Hwf' & Hel' & Hpres & Hnew).
    { lia. }
    { intros k v Hin. apply Hok. apply elem_of_cons. auto. }
    { done. }
    { intros k v Hin v' Hv'.
      destruct (Hok k v) as (Hk & _); [apply elem_of_cons; auto|].
      apply Hc in Hv' as [[Hkk _]|[_ Hv']]; [| |done].
      - by apply (Hd0 k v).
      - by apply (Habs k v ltac:(apply elem_of_cons; auto) v'). }
    exists m', h'. cbn [adds]. rewrite HA. simpl. split_and!; try done.
    + simpl. lia.
    + intros k v Hk Hv. apply Hpres; [done|]. apply Hc; [done|]. right.
      split; [|done]. intros Hkk.
      destruct Hv as (i & ki & Hsl & Hki).
      destruct (wf_key _ _ Hwf _ _ _ Hsl) as [_ Hvi].
      apply (Habs k0 v0 ltac:(apply elem_of_cons; auto) v).
      exists i, ki. split; [done|].
      apply (keq_trans ki k k0); try done. by apply keq_sym.
    + intros k v [[= -> ->]|Hin]%elem_of_cons; [|by apply Hnew].
      apply Hpres; [done|]. apply Hc; [done|]. left. split; [|done].
      by apply keq_refl.
Qed.

(** C1 (amended): for every sequence of N Add calls with pairwise-distinct
    non-null keys and non-null values (N at most 2^28) on a table freshly
    initialized with a size hint between 1 and 2^30, every call returns,
    count equals N afterward, and for every inserted key the lookup
    returns exactly the value stored for that key. *)
Theorem C1_adds_distinct_keys values_p fuel hint h kvs :
  1 ≤ hint ≤ 2 ^ 30 → heap_ok h → Z.of_nat (length kvs) ≤ 2 ^ 28 →
  (∀ k v, (k, v) ∈ kvs → valid k ∧ k ≠ 0 ∧ stored values_p v ≠ 0) →
  distinct_keys kvs →
  ∃ m0 h0 m h1,
    generalmapInit hint calloc (has_cmp cmp) h = (m0, h0) ∧
    adds hashf cmp (S (S fuel)) kvs values_p m0 h0 = Some (m, h1) ∧
    elements m = Z.of_nat (length kvs) ∧
    ∀ k v, (k, v) ∈ kvs →
           generalmapMap hashf cmp m k = Some (stored values_p v).
Proof.
  intros Hhint Hh Hlen Hok Hd.
  destruct (generalmapInit_wf values_p hint h Hhint Hh)
    as (m0 & h0 & HI & _ & He0 & Hwf0 & Hown0 & Hh0 & Hnone).
  destruct (adds_distinct values_p fuel kvs m0 h0 Hwf0 Hown0 Hh0)
    as (m & h1 & HR & Hwf & Hel & _ & Hnew); try done; [lia|].
  exists m0, h0, m, h1. split_and!; try done; [lia|].
  intros k v Hin. destruct (Hok k v Hin) as (Hk & _).
  by apply (generalmapMap_holds values_p), Hnew.
Qed.

(** C2 (amended): for a size hint between 1 and 2^30, 2*count <= capacity
    holds (load factor at most one half, not strictly below it) after
    Init, after every Add made on a table of fewer than 2^28 elements and
    after every Merge of one such table into another made with
    count(dest) + capacity(src) at most 2^28; these calls all return.  Such an Add doubles the capacity first
    exactly when 2*count + 1 >= capacity, so that 2*count + 1 < capacity
    holds in the table the slot is stored in, and 2*count <= capacity
    holds again when it returns.  [reachable] is the set of the tables
    made and changed by these calls only, with keys the hash function
    and the comparator can read; the size hint 0 is the defect of C7 and
    C8. *)
Theorem C2_load_factor m h :
  reachable m h →
  (∀ hint h0,
     1 ≤ hint ≤ 2 ^ 30 → heap_ok h0 →
     ∃ m0 h1,
       generalmapInit hint calloc (has_cmp cmp) h0 = (m0, h1) ∧
       reachable m0 h1 ∧ elements m0 = 0 ∧ 2 * elements m0 ≤ size m0) ∧
  2 * elements m ≤ size m ∧
  (∀ key value values_p fuel,
     valid key → elements m < 2 ^ 28 →
     ∃ m1 h1 m' b,
       generalmapAdd hashf cmp (S (S fuel)) m key value values_p h
         = Some (m', b, h1) ∧
       insertion hashf cmp m1 key value values_p h1 = Some (m', b, h1) ∧
       (if decide (2 * elements m + 1 < size m)
        then m1 = m else size m1 = 2 * size m) ∧
       2 * elements m1 + 1 < size m1 ∧
       2 * elements m' ≤ size m' ∧ reachable m' h1) ∧
  (∀ src hs dup values_p fuel,
     reachable src hs →
     (∀ d k, dup = Some d → valid k → valid (d k)) →
     elements m + size src ≤ 2 ^ 28 →
     ∃ m' h',
       generalmapMerge hashf cmp (S (S fuel)) m src dup values_p h
         = Some (m', h') ∧
       2 * elements m' ≤ size m' ∧ reachable m' h').
Proof.
  intros Hr. pose proof (reachable_sound m h Hr) as (Hso & Hown & Hh).
  split_and!.
  - intros hint h0 Hhint Hh0.
    destruct (generalmapInit_sound hint h0 Hhint Hh0)
      as (m0 & h1 & HI & _ & He & Hso0 & _).
    exists m0, h1. split_and!; try done.
    + by apply (reach_init hint h0).
    + apply Hso0.
  - apply Hso.
  - intros key value values_p fuel Hk He.
    destruct (generalmapAdd_sound m key value values_p h fuel Hso Hown Hh He Hk)
      as (m1 & h1 & m' & b & HA & Hi & Hcase & _ & Hroom & Hso' & _).
    exists m1, h1, m', b. split_and!; try done.
    + destruct (decide (2 * elements m + 1 < size m));
        destruct Hcase as [(? & ? & ?)|(? & ? & ?)]; (done || lia).
    + apply Hso'.
    + by apply (reach_add m h fuel key value values_p m' b h1).
  - intros src hs dup values_p fuel Hrs Hdup He.
    pose proof (reachable_sound src hs Hrs) as (Hss & _ & _).
    destruct (generalmapMerge_sound m src dup values_p h fuel
                Hso Hown Hh Hss Hdup He)
      as (m' & h' & HM & Hso' & _).
    exists m', h'. split_and!; try done.
    + apply Hso'.
    + by apply (reach_merge m h src hs fuel dup values_p m' h').
Qed.

(** C5 (amended): on a table built from Init (size hint between 1 and
    2^30) by fewer than 2^28 Adds of non-null keys with non-null values,
    Add of a non-null key with a non-null value always returns; it
    returns true exactly when the key was added before, and then leaves
    count unchanged; otherwise it returns false and increments count by
    one; in both cases the lookup of the key then gives the new value. *)
Theorem C5_add_present_flag values_p fuel hint h kvs key value :
  1 ≤ hint ≤ 2 ^ 30 → heap_ok h → Z.of_nat (length kvs) < 2 ^ 28 →
  (∀ k v, (k, v) ∈ kvs → valid k ∧ k ≠ 0 ∧ stored values_p v ≠ 0) →
  valid key → key ≠ 0 → stored values_p value ≠ 0 →
  ∃ m0 h0 m h1 m' b h2,
    generalmapInit hint calloc (has_cmp cmp) h = (m0, h0) ∧
    adds hashf cmp (S (S fuel)) kvs values_p m0 h0 = Some (m, h1) ∧
    generalmapAdd hashf cmp (S (S fuel)) m key value values_p h1
      = Some (m', b, h2) ∧
    (b = true ↔ ∃ k0 v0, (k0, v0) ∈ kvs ∧ keq k0 key) ∧
    elements m' = elements m + (if b then 0 else 1) ∧
    generalmapMap hashf cmp m' key = Some (stored values_p value).
Proof.
  intros Hhint Hh Hlen Hok Hkey Hk0 Hst.
  destruct (generalmapInit_wf values_p hint h Hhint Hh)
    as (m0 & h0 & HI & _ & He0 & Hwf0 & Hown0 & Hh0 & Hnone).
  destruct (adds_wf values_p fuel kvs m0 h0 Hwf0 Hown0 Hh0)
    as (m & h1 & HR & Hwf & Hown & Hh1 & Hel & Hpres); [lia|done|].
  destruct (generalmapAdd_wf values_p m key value h1 fuel Hwf Hown Hh1)
    as (m' & b & h2 & HA & Hwf' & _ & _ & _ & Hb & Hel' & Hc); [lia|done..|].
  exists m0, h0, m, h1, m', b, h2. split_and!; try done.
  - rewrite Hb, (Hpres key Hkey). split; [|auto].
    intros [[v Hv]|?]; [|done]. by destruct (Hnone key v).
  - apply (generalmapMap_holds values_p); try done.
    apply Hc; [done|]. left. split; [|done]. by apply keq_refl.
Qed.

(** For a size hint between 1 and 2^30, capacity is a power of two
    immediately after Init and after every subsequent Add or Merge,
    which all return, as long as an Add is made on a table of fewer than
    2^28 elements and a Merge has count(dest) + capacity(src) at most
    2^28. *)
Theorem reachable_capacity_pow2 m h :
  reachable m h →
  is_pow2 (size m) ∧
  (∀ fuel key value values_p,
     valid key → elements m < 2 ^ 28 →
     ∃ m' b h',
       generalmapAdd hashf cmp (S (S fuel)) m key value values_p h
         = Some (m', b, h') ∧ is_pow2 (size m')) ∧
  (∀ fuel src hs dup values_p,
     reachable src hs →
     (∀ d k, dup = Some d → valid k → valid (d k)) →
     elements m + size src ≤ 2 ^ 28 →
     ∃ m' h',
       generalmapMerge hashf cmp (S (S fuel)) m src dup values_p h
         = Some (m', h') ∧ is_pow2 (size m')).
Proof.
  intros (Hso & Hown & Hh)%reachable_sound. split_and!.
  - apply Hso.
  - intros fuel key value values_p Hk He.
    destruct (generalmapAdd_sound m key value values_p h fuel Hso Hown Hh He Hk)
      as (m1 & h1 & m' & b & HA & _ & _ & _ & _ & Hso' & _).
    exists m', b, h1. split; [done|]. apply Hso'.
  - intros fuel src hs dup values_p (Hss & _ & _)%reachable_sound Hdup He.
    destruct (generalmapMerge_sound m src dup values_p h fuel
                Hso Hown Hh Hss Hdup He)
      as (m' & h' & HM & Hso' & _).
    exists m', h'. split; [done|]. apply Hso'.
Qed.

(** [generalmapMerge] of a well-formed table into another: the
    destination then maps the keys of the source as the source does, and
    every other key as before. *)
Lemma generalmapMerge_wf values_p dest src dup h fuel :
  wf values_p dest → owned dest h → heap_ok h → wf values_p src →
  (∀ d k, dup = Some d → valid k → valid (d k) ∧ d k ≠ 0 ∧ keq (d k) k) →
  elements dest + size src ≤ 2 ^ 28 →
  ∃ dest' h',
    generalmapMerge hashf cmp (S (S fuel)) dest src dup values_p h
      = Some (dest', h') ∧
    wf values_p dest' ∧ owned dest' h' ∧ heap_ok h' ∧
    ∀ k v, valid k →
      holds dest' k v ↔
      holds src k v ∨ ((∀ v', ¬ holds src k v') ∧ holds dest k v).
Proof.
  intros Hwd Hown Hh Hws Hdup Hsmall.
  pose proof (wf_sound _ _ Hws) as Hss. pose proof (so_shaped _ Hss) as Hs.
  pose proof (is_pow2_pos _ (sh_pow2 _ Hs)) as Hpos.
  set (P := λ (j : Z) (d : generalmap) (h' : heap),
         wf values_p d ∧ owned d h' ∧ heap_ok h' ∧
         elements d ≤ elements dest + j ∧
         ∀ k v, valid k →
           holds d k v ↔
           (∃ i ki, 0 ≤ i < j ∧ slot src i ki v ∧ keq ki k) ∨
           ((∀ i ki v', 0 ≤ i < j → slot src i ki v' → ¬ keq ki k) ∧
            holds dest k v)).
  destruct (merge_loop_rule P
              (λ d k v h', generalmapAdd hashf cmp (S (S fuel)) d k v values_p h')
              dup values_p src) with (n := Z.to_nat (size src)) (i := 0)
              (dest := dest) (h := h)
    as (dest' & h' & HM & Hwd' & Hown' & Hh' & _ & Hc); [|lia|lia| |].
  - intros j d h' Hj (Hd & Hod & Hhd & Hed & Hcd).
    destruct (rd_good _ _ j (sh_keys _ Hs) Hj) as [k Hk]. exists k.
    split; [done|].
    destruct (rd_good _ _ j (sh_values _ Hs) Hj) as [v Hv].
    destruct (Z.eqb_spec k 0) as [->|Hk0].
    + assert (Hns : ∀ ki v', ¬ slot src j ki v').
      { intros ki v' Hsl. destruct (wf_key _ _ Hws _ _ _ Hsl) as [Hne _].
        destruct Hsl as (? & _). congruence. }
      unfold P. split_and!; try done; [lia|].
      intros k' v' Hk'. rewrite (Hcd k' v' Hk'). split.
      * intros [(i & ki & Hi & Hsl & Hki)|[Hall Hold]].
        -- left. exists i, ki. split_and!; (done || lia).
        -- right. split; [|done]. intros i ki v'' Hi Hsl.
           destruct (Z.eq_dec i j) as [->|]; [by destruct (Hns ki v'')|].
           apply (Hall i ki v''); (done || lia).
      * intros [(i & ki & Hi & Hsl & Hki)|[Hall Hold]].
        -- left. exists i, ki. split_and!; try done; [lia|].
           destruct (Z.eq_dec i j) as [->|]; [by destruct (Hns ki v')|lia].
        -- right. split; [|done]. intros i ki v'' Hi. apply Hall. lia.
    + assert (v ≠ 0) as Hv0.
      { intros ->. pose proof (wf_empty _ _ Hws j Hv). congruence. }
      assert (Hsl : slot src j k v) by done.
      destruct (wf_key _ _ Hws _ _ _ Hsl) as [_ Hvk].
      set (key := match dup with Some d0 => d0 k | None => k end).
      assert (valid key ∧ key ≠ 0 ∧ keq key k) as (Hvkey & Hkey0 & Hkk).
      { unfold key. destruct dup as [d0|]; [by apply (Hdup d0)|].
        split_and!; try done. by apply keq_refl. }
      assert (Hst : stored values_p (if values_p then v else 0) = v).
      { destruct values_p eqn:Hvp; [done|].
        destruct (wf_sentinel _ _ Hws eq_refl j v Hv); simpl; lia. }
      destruct (generalmapAdd_wf values_p d key (if values_p then v else 0)
                  h' fuel Hd Hod Hhd)
        as (d' & b & h'' & HA & Hwd' & Hod' & Hhd' & _ & _ & Hel & Hcd');
        [lia|done|done|by rewrite Hst|].
      rewrite Hst in Hcd'.
      exists (if values_p then v else 0), d', b, h''.
      split; [by destruct values_p|]. split; [done|].
      unfold P. split_and!; try done; [destruct b; lia|].
      intros k' v' Hk'. rewrite (Hcd' k' v' Hk'). split.
      * intros [[Hkk' ->]|[Hnk Hold]].
        -- left. exists j, k. split_and!; try done; [lia..|].
           apply (keq_trans k key k'); try done. by apply keq_sym.
        -- apply Hcd in Hold as [(i & ki & Hi & Hsli & Hki)|[Hall Hold]];
             [| |done].
           ++ left. exists i, ki. split_and!; (done || lia).
           ++ right. split; [|done]. intros i ki v'' Hi Hsli.
              destruct (Z.eq_dec i j) as [->|]; [|apply (Hall i ki v''); (done || lia)].
              destruct (slot_fun _ _ _ _ _ _ Hsl Hsli) as [<- _].
              intros Hkk'. apply Hnk. by apply (keq_trans key k k').
      * intros [(i & ki & Hi & Hsli & Hki)|[Hall Hold]].
        -- destruct (Z.eq_dec i j) as [->|Hne].
           ++ destruct (slot_fun _ _ _ _ _ _ Hsl Hsli) as [<- <-].
              left. split; [|done]. by apply (keq_trans key k k').
           ++ right. destruct (wf_key _ _ Hws _ _ _ Hsli) as [_ Hvi]. split.
              ** intros Hkk'. apply Hne.
                 apply (slot_unique values_p src i ki v' j k v); try done.
                 apply (keq_trans ki k' k); try done.
                 apply keq_sym; try done.
                 apply (keq_trans k key k'); try done. by apply keq_sym.
              ** apply Hcd; [done|]. left. exists i, ki.
                 split_and!; (done || lia).
        -- assert (¬ keq key k') as Hnk.
           { intros Hkk'. apply (Hall j k v); [lia|done|].
             apply (keq_trans k key k'); try done. by apply keq_sym. }
           right. split; [done|]. apply Hcd; [done|]. right.
           split; [|done]. intros i ki v'' Hi. apply Hall. lia.
  - unfold P. split_and!; try done; [lia|].
    intros k v Hk. split.
    + intros Hd. right. split; [|done]. intros i ki v' Hi. lia.
    + intros [(i & ki & Hi & _)|[_ Hd]]; [lia|done].
  - exists dest', h'. unfold generalmapMerge. split_and!; try done.
    intros k v Hk. rewrite (Hc k v Hk). split.
    + intros [(i & ki & _ & Hsl & Hki)|[Hall Hd]].
      * left. by exists i, ki.
      * right. split; [|done]. intros v' (i & ki & Hsl & Hki).
        apply (Hall i ki v'); try done. by apply (slot_range src i ki v').
    + intros [(i & ki & Hsl & Hki)|[Hnone Hd]].
      * left. exists i, ki. split_and!; try done;
          by apply (slot_range src i ki v).
      * right. split; [|done]. intros i ki v' _ Hsl Hki.
        apply (Hnone v'). by exists i, ki.
Qed.

(** Lookups of a key that is not in a well-formed table of an integer
    variant (no comparator), the key 0 apart. *)
Lemma generalmapMap_absent_int values_p m key :
  cmp = None → wf values_p m → valid key → key ≠ 0 →
  (∀ v, ¬ holds m key v) →
  generalmapMap hashf cmp m key = Some 0 ∧
  generalmapTest hashf cmp m key = Some false.
Proof.
  intros Hc Hwf Hkey Hk0 Habs. pose proof (wf_sound _ _ Hwf) as Hso.
  destruct (hash_valid' m key (so_shaped _ Hso) Hkey) as (hash & Hh & Hh' & Hr).
  assert (elements m < size m) as Hroom.
  { pose proof (sound_elements m Hso). pose proof (so_load _ Hso).
    pose proof (is_pow2_pos _ (sh_pow2 _ (so_shaped _ Hso))). lia. }
  destruct (generalmapFind_probe m key hash Hso Hkey Hr Hroom)
    as (idx & HF & Hidx & Hp).
  destruct (probe_result values_p m key hash idx Hwf Hkey Hh Hr Hidx Hp)
    as [[Hz _]|(k & v & Hsl & Hkeq)].
  - pose proof (wf_empty _ _ Hwf idx Hz) as Hkz.
    assert (HM : generalmapIsMatch cmp m idx key hash = Some false).
    { unfold generalmapIsMatch. destruct cmp; [done|]. rewrite Hkz. simpl.
      destruct key; [by destruct Hk0|done..]. }
    unfold generalmapMap, generalmapTest. rewrite Hh'. simpl. rewrite HF.
    simpl. by rewrite HM.
  - destruct (Habs v). by exists idx, k.
Qed.

End Soundness.

(** ** Find and Free *)

(** What a slot holds for a probe of [key] with the hash [hash], read
    off the arrays of the table.  [empty_slot]: its value is null.
    [key_slot]: it is occupied by the key: without a comparator its key
    is [key] itself; with one, its cached hash is [hash] and the
    comparator returns 0 on its key and [key].  [other_slot]: it is
    occupied by another key. *)
Definition empty_slot (m : generalmap) (j : Z) : Prop :=
  data (values m) !! Z.to_nat j = Some 0.

Definition occupied_slot (m : generalmap) (j : Z) : Prop :=
  ∃ v, data (values m) !! Z.to_nat j = Some v ∧ v ≠ 0.

Definition key_slot (cmp : option (Z → Z → option Z)) (m : generalmap)
    (j key hash : Z) : Prop :=
  occupied_slot m j ∧
  match cmp with
  | Some c =>
      data (hashes m) !! Z.to_nat j = Some hash ∧
      ∃ k, data (keysInt m) !! Z.to_nat j = Some k ∧ c k key = Some 0
  | None => data (keysInt m) !! Z.to_nat j = Some key
  end.

Definition other_slot (cmp : option (Z → Z → option Z)) (m : generalmap)
    (j key hash : Z) : Prop :=
  occupied_slot m j ∧
  match cmp with
  | Some c =>
      ∃ x, data (hashes m) !! Z.to_nat j = Some x ∧
        (x ≠ hash ∨
         ∃ k r, data (keysInt m) !! Z.to_nat j = Some k ∧
                c k key = Some r ∧ r ≠ 0)
  | None => ∃ k, data (keysInt m) !! Z.to_nat j = Some k ∧ k ≠ key
  end.

Lemma stops_true_slot cmp m j key hash :
  stops cmp m j key hash = Some true →
  empty_slot m j ∨ key_slot cmp m j key hash.
Proof.
  unfold stops. intros Hst.
  destruct (rd (values m) j) as [v|] eqn:Hv; simpl in Hst; [|done].
  apply rd_lookup in Hv.
  destruct (Z.eqb_spec v 0) as [->|Hne]; [by left|]. right.
  split; [by exists v|].
  unfold generalmapIsMatch in Hst. destruct cmp as [c|].
  - destruct (rd (hashes m) j) as [x|] eqn:Hx; simpl in Hst; [|done].
    apply rd_lookup in Hx.
    destruct (Z.eqb_spec x hash) as [->|]; [|done]. split; [done|].
    destruct (rd (keysInt m) j) as [k|] eqn:Hk; simpl in Hst; [|done].
    apply rd_lookup in Hk. exists k. split; [done|].
    destruct (c k key) as [r|]; simpl in Hst; [|done].
    injection Hst as Hst. apply Z.eqb_eq in Hst. by subst.
  - destruct (rd (keysInt m) j) as [k|] eqn:Hk; simpl in Hst; [|done].
    apply rd_lookup in Hk.
    injection Hst as Hst. apply Z.eqb_eq in Hst. by subst.
Qed.

Lemma stops_false_slot cmp m j key hash :
  stops cmp m j key hash = Some false → other_slot cmp m j key hash.
Proof.
  unfold stops. intros Hst.
  destruct (rd (values m) j) as [v|] eqn:Hv; simpl in Hst; [|done].
  apply rd_lookup in Hv.
  destruct (Z.eqb_spec v 0) as [->|Hne]; [done|].
  split; [by exists v|].
  unfold generalmapIsMatch in Hst. destruct cmp as [c|].
  - destruct (rd (hashes m) j) as [x|] eqn:Hx; simpl in Hst; [|done].
    apply rd_lookup in Hx. exists x. split; [done|].
    destruct (Z.eqb_spec x hash) as [->|]; [|by left]. right.
    destruct (rd (keysInt m) j) as [k|] eqn:Hk; simpl in Hst; [|done].
    apply rd_lookup in Hk.
    destruct (c k key) as [r|] eqn:Hr; simpl in Hst; [|done].
    exists k, r. split_and!; try done.
    injection Hst as Hst. by apply Z.eqb_neq in Hst.
  - destruct (rd (keysInt m) j) as [k|] eqn:Hk; simpl in Hst; [|done].
    apply rd_lookup in Hk. exists k. split; [done|].
    injection Hst as Hst. by apply Z.eqb_neq in Hst.
Qed.

(** C9: on a table of capacity at least 1 whose arrays hold [size] cells
    (and whose comparator can read the keys of the occupied slots),
    generalmapFind, started at a slot [hash] of the table, returns (the
    two loops are bounded, and the table is only read: the function
    gives back nothing but the index) a valid index in [0, capacity).
    The slot at that index is empty (its value is null) or holds the key
    (it is occupied, and its key is the key, or with a comparator its
    cached hash is [hash] and the comparator returns 0), and every slot
    before it in probe order from [hash], wrapping at the end of the
    table, is occupied by another key; or every slot of the table is
    occupied by another key, and the index is [hash] itself. *)
Theorem C9_find_probes cmp m key hash :
  1 ≤ size m →
  good (keysInt m) (size m) → good (values m) (size m) →
  (has_cmp cmp = true → good (hashes m) (size m)) →
  (∀ c j k v, cmp = Some c →
     rd (keysInt m) j = Some k → rd (values m) j = Some v → v ≠ 0 →
     is_Some (c k key)) →
  0 ≤ hash < size m →
  ∃ idx, generalmapFind cmp m key hash = Some idx ∧ 0 ≤ idx < size m ∧
    (((empty_slot m idx ∨ key_slot cmp m idx key hash) ∧
      ∀ j, 0 ≤ j < size m →
           dist (size m) hash j < dist (size m) hash idx →
           other_slot cmp m j key hash) ∨
     (idx = hash ∧
      ∀ j, 0 ≤ j < size m → other_slot cmp m j key hash)).
Proof.
  intros _ Hk Hv Hhs Hc Hh.
  destruct (generalmapFind_spec cmp m key hash Hh)
    as (idx & HF & Hidx & Hcase).
  { intros j Hj. unfold stops.
    destruct (rd_good _ _ j Hv Hj) as [v Hrv]. rewrite Hrv. simpl.
    destruct (Z.eqb_spec v 0) as [->|Hne]; [done|].
    destruct (rd_good _ _ j Hk Hj) as [k Hrk].
    unfold generalmapIsMatch. rewrite Hrk.
    destruct cmp as [c|] eqn:Ecmp; simpl; [|done].
    destruct (rd_good _ _ j (Hhs eq_refl) Hj) as [x ->]. simpl.
    destruct (x =? hash); [|done].
    destruct (Hc c j k v eq_refl Hrk Hrv Hne) as [r ->]. done. }
  exists idx. split; [done|]. split; [done|].
  destruct Hcase as [[Hst Hbefore]|[-> Hall]].
  - left. split; [by apply (stops_true_slot cmp m idx key hash)|].
    intros j Hj Hd. by apply stops_false_slot, Hbefore.
  - right. split; [done|]. intros j Hj. by apply stops_false_slot, Hall.
Qed.

(** C10 (amended): Free releases the arrays of the table (keys and
    values, and hashes when there are any) and nulls the three array
    pointers; size and elements are left as they were.  Calling Free
    again on the same table, or on a table that is all zero, frees
    nothing and returns normally. *)
Theorem C10_free_nulls_arrays cmp m h :
  heap_ok h → owned cmp m h →
  ∃ m' h', generalmapFree m (has_cmp cmp) h = Some (m', h') ∧
    keysInt m' = null ∧ hashes m' = null ∧ values m' = null ∧
    size m' = size m ∧ elements m' = elements m ∧
    (∀ a, a ∈ live h' ↔ a ∈ live h ∧ a ∉ blocks cmp m) ∧
    (∀ hashes_p, generalmapFree m' hashes_p h' = Some (m', h')) ∧
    (∀ hashes_p h0,
       generalmapFree (Generalmap 0 0 null null null) hashes_p h0
       = Some (Generalmap 0 0 null null null, h0)).
Proof.
  intros Hh Hown.
  destruct (generalmapFree_spec cmp m h Hh Hown) as (m' & h' & HF & _ & Hl).
  exists m', h'. split; [done|].
  unfold generalmapFree in HF.
  destruct (free (keysInt m) h) as [h1|]; simpl in HF; [|done].
  destruct (if has_cmp cmp then free (hashes m) h1 else Some h1) as [h2|];
    simpl in HF; [|done].
  destruct (free (values m) h2) as [h3|]; simpl in HF; [|done].
  injection HF as <- <-. simpl. split_and!; try done.
  - intros []; done.
  - intros []; done.
Qed.

(** ** The function pointers of the four variants *)

(** The integer variants: every [intptr_t] is a key, keys are compared
    by identity. *)
Definition int_key (k : Z) : Prop := True.

Lemma hashint_f_valid k s :
  int_key k → is_pow2 s → s ≤ 2 ^ 30 →
  ∃ x, hashint_f k s = Some x ∧ 0 ≤ x < s.
Proof.
  intros _ Hp Hs. exists (hashint k s). split; [done|].
  by apply hash_finish_range.
Qed.

Lemma no_cmp_valid (c : Z → Z → option Z) a b :
  None = Some c → int_key a → int_key b → is_Some (c a b).
Proof. intros [=]. Qed.

Lemma int_keq_refl a : int_key a → keq None a a.
Proof. done. Qed.

Lemma int_keq_sym a b : int_key a → int_key b → keq None a b → keq None b a.
Proof. intros _ _. unfold keq. done. Qed.

Lemma int_keq_trans a b c :
  int_key a → int_key b → int_key c →
  keq None a b → keq None b c → keq None a c.
Proof. intros _ _ _. unfold keq. congruence. Qed.

Lemma hashint_f_keq a b s :
  int_key a → int_key b → keq None a b → hashint_f a s = hashint_f b s.
Proof. intros _ _. unfold keq. by intros ->. Qed.

(** The string variants: a key is a pointer to a string of non-zero
    [char]s, keys are compared by [strcmp]. *)
Definition is_char (c : Z) : Prop := - 128 ≤ c ≤ 127 ∧ c ≠ 0.

Definition str_key (mem : Z → option (list Z)) (p : Z) : Prop :=
  ∃ s, mem p = Some s ∧ Forall is_char s.

Lemma char_mod_inj x y :
  - 128 ≤ x ≤ 127 → - 128 ≤ y ≤ 127 → x mod 256 = y mod 256 → x = y.
Proof.
  intros Hx Hy.
  assert (H : ∀ z, - 128 ≤ z ≤ 127 →
                z mod 256 = if z <? 0 then z + 256 else z).
  { intros z Hz. destruct (Z.ltb_spec z 0).
    - symmetry. apply (Z.mod_unique _ _ (-1)); lia.
    - apply Z.mod_small. lia. }
  rewrite (H x Hx), (H y Hy).
  destruct (Z.ltb_spec x 0), (Z.ltb_spec y 0); lia.
Qed.

Lemma strcmp_chars_eq a : ∀ b,
  Forall is_char a → Forall is_char b → strcmp_chars a b = 0 ↔ a = b.
Proof.
  induction a as [|x a IH]; intros [|y b] Ha Hb; simpl.
  - done.
  - apply Forall_cons in Hb as [[Hy Hy0] _]. split; [|done]. intros H.
    exfalso. apply Hy0. apply (char_mod_inj y 0); [lia..|].
    rewrite Z.mod_0_l by lia. lia.
  - apply Forall_cons in Ha as [[Hx Hx0] _]. split; [|done]. intros H.
    exfalso. apply Hx0. apply (char_mod_inj x 0); [lia..|].
    rewrite Z.mod_0_l by lia. lia.
  - apply Forall_cons in Ha as [[Hx Hx0] Ha].
    apply Forall_cons in Hb as [[Hy Hy0] Hb].
    destruct (Z.eqb_spec x y) as [->|Hne].
    + rewrite (IH b Ha Hb). split; [by intros ->|by intros [= ->]].
    + split; [|by intros [= ? ?]]. intros H. exfalso. apply Hne.
      apply char_mod_inj; lia.
Qed.

Section StringKeys.

Variable mem : Z → option (list Z).

Lemma hashstr_f_valid k s :
  str_key mem k → is_pow2 s → s ≤ 2 ^ 30 →
  ∃ x, hashstr_f mem k s = Some x ∧ 0 ≤ x < s.
Proof.
  intros (str & Hm & _) Hp Hs. exists (hashstr str s).
  unfold hashstr_f. rewrite Hm. split; [done|].
  by apply hash_finish_range.
Qed.

Lemma strcmp_valid c a b :
  Some (strcmp mem) = Some c → str_key mem a → str_key mem b →
  is_Some (c a b).
Proof.
  intros [= <-] (sa & Ha & _) (sb & Hb & _). unfold strcmp.
  rewrite Ha, Hb. done.
Qed.

Lemma str_keq a b :
  str_key mem a → str_key mem b →
  keq (Some (strcmp mem)) a b ↔ mem a = mem b.
Proof.
  intros (sa & Ha & Fa) (sb & Hb & Fb). unfold keq, strcmp.
  rewrite Ha, Hb. simpl. split.
  - intros [= H]. f_equal. by apply strcmp_chars_eq.
  - intros [= ->]. f_equal. by apply strcmp_chars_eq.
Qed.

Lemma str_keq_refl a : str_key mem a → keq (Some (strcmp mem)) a a.
Proof. intros Ha. by apply str_keq. Qed.

Lemma str_keq_sym a b :
  str_key mem a → str_key mem b →
  keq (Some (strcmp mem)) a b → keq (Some (strcmp mem)) b a.
Proof. intros Ha Hb H. apply str_keq; [done..|]. symmetry. by apply str_keq. Qed.

Lemma str_keq_trans a b c :
  str_key mem a → str_key mem b → str_key mem c →
  keq (Some (strcmp mem)) a b → keq (Some (strcmp mem)) b c →
  keq (Some (strcmp mem)) a c.
Proof.
  intros Ha Hb Hc H1 H2. apply str_keq; [done..|].
  apply str_keq in H1; [|done..]. apply str_keq in H2; [|done..]. congruence.
Qed.

Lemma hashstr_f_keq a b s :
  str_key mem a → str_key mem b → keq (Some (strcmp mem)) a b →
  hashstr_f mem a s = hashstr_f mem b s.
Proof.
  intros Ha Hb H. apply str_keq in H; [|done..].
  unfold hashstr_f. by rewrite H.
Qed.

End StringKeys.

(** * Concrete runs *)

Ltac zcmp :=
  rewrite ?pow2_30; change (2 ^ 28) with 268435456; simpl; lia.

Ltac run := vm_compute; reflexivity.

(** A memory holding the strings "a", "b", "c" and "z". *)
Definition demo_mem (p : Z) : option (list Z) :=
  if p =? 100 then Some [97]
  else if p =? 200 then Some [98]
  else if p =? 300 then Some [99]
  else if p =? 400 then Some [122]
  else None.

(** The slots the integer keys of the runs below hash to. *)
Example hashint_capacity_4 :
  map (λ k, hashint k 4) [0; 1; 2; 5; 6] = [0; 1; 3; 3; 1].
Proof. run. Qed.

Example hashint_capacity_8 :
  map (λ k, hashint k 8) [0; 1; 2; 3; 6] = [0; 5; 3; 6; 5].
Proof. run. Qed.

(** The intmap after [intmapInit(4)], and after adding 1 and 2. *)
Definition intmap_fresh : generalmap :=
  Generalmap 4 0 (Array 1 [0; 0; 0; 0]) null (Array 2 [0; 0; 0; 0]).

Definition intmap_12 : generalmap :=
  Generalmap 4 2 (Array 1 [0; 1; 0; 2]) null (Array 2 [0; 11; 0; 12]).

Definition heap_12 : heap := Heap 3 [2; 1].

Lemma intmap_fresh_init :
  intmapInit 4 calloc heap0 = (intmap_fresh, heap_12).
Proof. run. Qed.

Lemma intmap_12_adds :
  adds hashint_f None 2 [(1, 11); (2, 12)] true intmap_fresh heap_12
  = Some (intmap_12, heap_12).
Proof. run. Qed.

Lemma intmap_12_reachable : reachable hashint_f None int_key intmap_12 heap_12.
Proof.
  assert (R0 : reachable hashint_f None int_key intmap_fresh heap_12).
  { apply (reach_init _ _ _ 4 heap0); [zcmp|apply heap0_ok|run]. }
  assert (R1 : reachable hashint_f None int_key
                 (Generalmap 4 1 (Array 1 [0; 1; 0; 0]) null
                                 (Array 2 [0; 11; 0; 0])) heap_12).
  { apply (reach_add _ _ _ _ _ 0%nat 1 11 true _ false _ R0);
      [exact I|zcmp|run]. }
  apply (reach_add _ _ _ _ _ 0%nat 2 12 true _ false _ R1);
    [exact I|zcmp|run].
Qed.

(** The scenario of the specification, with the string map: "a", "b"
    and "c" added to a table of size hint 3. *)
Lemma C1_witness :
  ∃ m0 h0 m h1,
    generalmapInit 3 calloc (has_cmp (Some (strcmp demo_mem))) heap0
      = (m0, h0) ∧
    adds (hashstr_f demo_mem) (Some (strcmp demo_mem)) 2
         [(100, 1); (200, 2); (300, 3)] true m0 h0 = Some (m, h1) ∧
    elements m = Z.of_nat (length [(100, 1); (200, 2); (300, 3)]) ∧
    ∀ k v, (k, v) ∈ [(100, 1); (200, 2); (300, 3)] →
           generalmapMap (hashstr_f demo_mem) (Some (strcmp demo_mem)) m k
           = Some (stored true v).
Proof.
  apply (C1_adds_distinct_keys
           (hashstr_f demo_mem) (Some (strcmp demo_mem)) (str_key demo_mem)
           (hashstr_f_valid demo_mem) (strcmp_valid demo_mem)
           (str_keq_refl demo_mem) (str_keq_sym demo_mem)
           (str_keq_trans demo_mem) (hashstr_f_keq demo_mem)
           true 0%nat 3 heap0 [(100, 1); (200, 2); (300, 3)]).
  - zcmp.
  - apply heap0_ok.
  - zcmp.
  - intros k v Hin. rewrite !elem_of_cons, elem_of_nil in Hin.
    destruct Hin as [[= -> ->]|[[= -> ->]|[[= -> ->]|[]]]];
      (split; [eexists; split; [reflexivity|];
               repeat (constructor; [unfold is_char; lia|]); constructor
              |split; [lia|simpl; lia]]).
  - simpl. split_and!; try done; intros k' v' Hin;
      rewrite ?elem_of_cons, elem_of_nil in Hin;
      (destruct Hin as [[= -> ->]|[[= -> ->]|[]]]
       || destruct Hin as [[= -> ->]|[]] || destruct Hin);
      unfold keq; vm_compute; discriminate.
Defined.

(** With a null value in play the count is off: 1 is added with a null
    value, 6 probes to the same slot, finds it empty and takes it, and
    the growth on adding 2 copies one key only.  Three distinct keys
    were added and count is 2. *)
Lemma C1_counterexample :
  NoDup [1; 6; 2] ∧
  intmapInit 4 calloc heap0 = (intmap_fresh, heap_12) ∧
  adds hashint_f None 2 [(1, 0); (6, 16); (2, 12)] true intmap_fresh heap_12
    = Some (Generalmap 8 2 (Array 3 [0; 0; 0; 2; 0; 6; 0; 0]) null
                           (Array 4 [0; 0; 0; 12; 0; 16; 0; 0]),
            Heap 5 [4; 3]) ∧
  elements (Generalmap 8 2 (Array 3 [0; 0; 0; 2; 0; 6; 0; 0]) null
                           (Array 4 [0; 0; 0; 12; 0; 16; 0; 0]))
    ≠ Z.of_nat (length [(1, 0); (6, 16); (2, 12)]).
Proof.
  split_and!; [|run..|done].
  repeat constructor; rewrite ?elem_of_cons, ?elem_of_nil; lia.
Qed.

Lemma C2_witness :
  (∀ hint h0,
     1 ≤ hint ≤ 2 ^ 30 → heap_ok h0 →
     ∃ m0 h1,
       generalmapInit hint calloc (has_cmp None) h0 = (m0, h1) ∧
       reachable hashint_f None int_key m0 h1 ∧
       elements m0 = 0 ∧ 2 * elements m0 ≤ size m0) ∧
  2 * elements intmap_12 ≤ size intmap_12 ∧
  (∀ key value values_p fuel,
     int_key key → elements intmap_12 < 2 ^ 28 →
     ∃ m1 h1 m' b,
       generalmapAdd hashint_f None (S (S fuel)) intmap_12 key value values_p
                     heap_12
         = Some (m', b, h1) ∧
       insertion hashint_f None m1 key value values_p h1 = Some (m', b, h1) ∧
       (if decide (2 * elements intmap_12 + 1 < size intmap_12)
        then m1 = intmap_12 else size m1 = 2 * size intmap_12) ∧
       2 * elements m1 + 1 < size m1 ∧
       2 * elements m' ≤ size m' ∧
       reachable hashint_f None int_key m' h1) ∧
  (∀ src hs dup values_p fuel,
     reachable hashint_f None int_key src hs →
     (∀ d k, dup = Some d → int_key k → int_key (d k)) →
     elements intmap_12 + size src ≤ 2 ^ 28 →
     ∃ m' h',
       generalmapMerge hashint_f None (S (S fuel)) intmap_12 src dup values_p
                       heap_12
         = Some (m', h') ∧
       2 * elements m' ≤ size m' ∧
       reachable hashint_f None int_key m' h').
Proof.
  apply (C2_load_factor hashint_f None int_key hashint_f_valid no_cmp_valid
           intmap_12 heap_12).
  apply intmap_12_reachable.
Defined.

(** The Add of 3 to the table holding 1 and 2 in four slots: 2*2 + 1 is
    not below 4, the table is doubled, and the slot is stored in a table
    of eight slots holding two elements. *)
Example C2_growing_add :
  intmapAdd 2 intmap_12 3 13 heap_12
    = Some (Generalmap 8 3 (Array 3 [0; 0; 0; 2; 0; 1; 3; 0]) null
                           (Array 4 [0; 0; 0; 12; 0; 11; 13; 0]),
            false, Heap 5 [4; 3]).
Proof. run. Qed.

(** The scenario of the specification: after the second Add the table of
    capacity 4 holds 2 elements, and 2*2 + 1 is not below 4. *)
Lemma C2_counterexample :
  intmapInit 3 calloc heap0 = (intmap_fresh, heap_12) ∧
  adds hashint_f None 2 [(1, 11); (2, 12)] true intmap_fresh heap_12
    = Some (intmap_12, heap_12) ∧
  size intmap_12 = 4 ∧ elements intmap_12 = 2 ∧
  ¬ (2 * elements intmap_12 + 1 < size intmap_12).
Proof. split_and!; [run..|simpl; lia]. Qed.

(** C3, at the failing input: when an Add grows an intmap that holds the
    key 0, the key is gone:
    before the Add of 2 the lookup of 0 gives 10, after it (capacity
    doubled from 4 to 8) it gives null, and count is 2 after 3 Adds of
    distinct keys.  [generalmapMerge] skips the slots whose key is 0. *)
Theorem C3_growth_loses_key_zero :
  adds hashint_f None 2 [(0, 10); (1, 11)] true intmap_fresh heap_12
    = Some (Generalmap 4 2 (Array 1 [0; 1; 0; 0]) null
                           (Array 2 [10; 11; 0; 0]), heap_12) ∧
  intmapMap (Generalmap 4 2 (Array 1 [0; 1; 0; 0]) null
                            (Array 2 [10; 11; 0; 0])) 0 = Some 10 ∧
  intmapAdd 2 (Generalmap 4 2 (Array 1 [0; 1; 0; 0]) null
                              (Array 2 [10; 11; 0; 0])) 2 13 heap_12
    = Some (Generalmap 8 2 (Array 3 [0; 0; 0; 2; 0; 1; 0; 0]) null
                           (Array 4 [0; 0; 0; 13; 0; 11; 0; 0]),
            false, Heap 5 [4; 3]) ∧
  intmapMap (Generalmap 8 2 (Array 3 [0; 0; 0; 2; 0; 1; 0; 0]) null
                            (Array 4 [0; 0; 0; 13; 0; 11; 0; 0])) 0 = Some 0 ∧
  intmapMap (Generalmap 8 2 (Array 3 [0; 0; 0; 2; 0; 1; 0; 0]) null
                            (Array 4 [0; 0; 0; 13; 0; 11; 0; 0])) 1 = Some 11.
Proof. split_and!; run. Qed.

(** C4, at the failing input: merging an intmap that holds the key 0
    into an empty one leaves the key 0 out: the source maps 0 to 10, the destination maps it to
    null. *)
Theorem C4_merge_skips_key_zero :
  intmapMap (Generalmap 4 2 (Array 1 [0; 1; 0; 0]) null
                            (Array 2 [10; 11; 0; 0])) 0 = Some 10 ∧
  intmapInit 4 calloc heap_12
    = (Generalmap 4 0 (Array 3 [0; 0; 0; 0]) null (Array 4 [0; 0; 0; 0]),
       Heap 5 [4; 3; 2; 1]) ∧
  intmapMerge 2
    (Generalmap 4 0 (Array 3 [0; 0; 0; 0]) null (Array 4 [0; 0; 0; 0]))
    (Generalmap 4 2 (Array 1 [0; 1; 0; 0]) null (Array 2 [10; 11; 0; 0]))
    (Heap 5 [4; 3; 2; 1])
    = Some (Generalmap 4 1 (Array 3 [0; 1; 0; 0]) null
                           (Array 4 [0; 11; 0; 0]), Heap 5 [4; 3; 2; 1]) ∧
  intmapMap (Generalmap 4 1 (Array 3 [0; 1; 0; 0]) null
                            (Array 4 [0; 11; 0; 0])) 0 = Some 0 ∧
  intmapMap (Generalmap 4 1 (Array 3 [0; 1; 0; 0]) null
                            (Array 4 [0; 11; 0; 0])) 1 = Some 11.
Proof. split_and!; run. Qed.

Lemma C5_witness :
  ∃ m0 h0 m h1 m' b h2,
    generalmapInit 4 calloc (has_cmp None) heap0 = (m0, h0) ∧
    adds hashint_f None 2 [(1, 11); (2, 12)] true m0 h0 = Some (m, h1) ∧
    generalmapAdd hashint_f None 2 m 1 21 true h1 = Some (m', b, h2) ∧
    (b = true ↔ ∃ k0 v0, (k0, v0) ∈ [(1, 11); (2, 12)] ∧ keq None k0 1) ∧
    elements m' = elements m + (if b then 0 else 1) ∧
    generalmapMap hashint_f None m' 1 = Some (stored true 21).
Proof.
  apply (C5_add_present_flag hashint_f None int_key
           hashint_f_valid no_cmp_valid int_keq_refl int_keq_sym
           int_keq_trans hashint_f_keq
           true 0%nat 4 heap0 [(1, 11); (2, 12)] 1 21).
  - zcmp.
  - apply heap0_ok.
  - zcmp.
  - intros k v Hin. rewrite !elem_of_cons, elem_of_nil in Hin.
    destruct Hin as [[= -> ->]|[[= -> ->]|[]]];
      (split; [exact I|split; [lia|simpl; lia]]).
  - exact I.
  - lia.
  - simpl. lia.
Defined.

(** With a null value in play a re-Add changes the count: 1 is added
    with a null value, 6 takes its slot (count 2), and re-adding 6,
    which is present with the value 16, grows the table, returns true
    and leaves count at 1. *)
Lemma C5_counterexample :
  adds hashint_f None 2 [(1, 0); (6, 16)] true intmap_fresh heap_12
    = Some (Generalmap 4 2 (Array 1 [0; 6; 0; 0]) null
                           (Array 2 [0; 16; 0; 0]), heap_12) ∧
  intmapMap (Generalmap 4 2 (Array 1 [0; 6; 0; 0]) null
                            (Array 2 [0; 16; 0; 0])) 6 = Some 16 ∧
  intmapAdd 2 (Generalmap 4 2 (Array 1 [0; 6; 0; 0]) null
                              (Array 2 [0; 16; 0; 0])) 6 17 heap_12
    = Some (Generalmap 8 1 (Array 3 [0; 0; 0; 0; 0; 6; 0; 0]) null
                           (Array 4 [0; 0; 0; 0; 0; 17; 0; 0]),
            true, Heap 5 [4; 3]) ∧
  elements (Generalmap 8 1 (Array 3 [0; 0; 0; 0; 0; 6; 0; 0]) null
                           (Array 4 [0; 0; 0; 0; 0; 17; 0; 0]))
    ≠ elements (Generalmap 4 2 (Array 1 [0; 6; 0; 0]) null
                               (Array 2 [0; 16; 0; 0])).
Proof. split_and!; [run..|done]. Qed.

(** C6, at the failing inputs: on a freshly initialized intset the test
    of the element 0 answers true: the probe stops at the empty slot 0, and its zero key equals
    the element.  On a freshly initialized string map of capacity 1 the
    lookup of the string "a" compares through the null key of the empty
    slot. *)
Theorem C6_lookup_on_fresh_table :
  intsetInit 4 calloc heap0 = (intmap_fresh, heap_12) ∧
  mapNull intmap_fresh = true ∧
  intsetTest intmap_fresh 0 = Some true ∧
  hashmapInit 1 calloc heap0
    = (Generalmap 1 0 (Array 1 [0]) (Array 2 [0]) (Array 3 [0]),
       Heap 4 [3; 2; 1]) ∧
  hashmapMap demo_mem
    (Generalmap 1 0 (Array 1 [0]) (Array 2 [0]) (Array 3 [0])) 100 = None ∧
  strcmp demo_mem 0 100 = None.
Proof. split_and!; run. Qed.

Lemma insertion_no_cells hashf cmp m key value values_p h :
  data (values m) = [] → insertion hashf cmp m key value values_p h = None.
Proof.
  intros Hd.
  assert (Hrd : ∀ i, rd (values m) i = None).
  { intros i. unfold rd. rewrite Hd. by destruct (_ || _). }
  assert (Hfl : ∀ n i hash, find_loop cmp (S n) m key hash i = None).
  { intros n i hash. simpl. unfold stops. by rewrite Hrd. }
  unfold insertion. destruct (hashf key (size m)) as [x|]; simpl; [|done].
  unfold generalmapFind.
  destruct (Z.to_nat (size m - int x)) as [|n]; [simpl|by rewrite Hfl].
  destruct (Z.to_nat (int x)) as [|n']; [simpl|by rewrite Hfl].
  unfold store. by rewrite Hrd.
Qed.

(** C7, at the failing input: with a size hint of 0 the capacity after
    Init is 0, which is not a power of two; the growth of the first Add
    doubles it to 0 again, and the insertion into the grown table reads
    a slot of an array of no cells. *)
Theorem C7_capacity_zero :
  intmapInit 0 calloc heap0
    = (Generalmap 0 0 (Array 1 []) null (Array 2 []), Heap 3 [2; 1]) ∧
  ¬ is_pow2 0 ∧
  ∀ fuel element value,
    intmapAdd (S fuel) (Generalmap 0 0 (Array 1 []) null (Array 2 []))
              element value (Heap 3 [2; 1])
    = insertion hashint_f None
        (Generalmap 0 0 (Array 3 []) null (Array 4 []))
        element value true (Heap 5 [4; 3]) ∧
    insertion hashint_f None
        (Generalmap 0 0 (Array 3 []) null (Array 4 []))
        element value true (Heap 5 [4; 3]) = None.
Proof.
  split_and!.
  - run.
  - intros (k & Hk & E).
    assert (0 < 2 ^ k) by (apply Z.pow_pos_nonneg; lia). lia.
  - intros fuel element value. split; [|by apply insertion_no_cells].
    unfold intmapAdd. cbn [generalmapAdd].
    change (int (int (elements (Generalmap 0 0 (Array 1 []) null (Array 2 []))
                      * 2) + 1)
            >=? size (Generalmap 0 0 (Array 1 []) null (Array 2 [])))
      with true.
    cbn [size elements].
    change (generalmapInit (int (0 * 2)) calloc (has_cmp None) (Heap 3 [2; 1]))
      with (Generalmap 0 0 (Array 3 []) null (Array 4 []),
            Heap 5 [4; 3; 2; 1]).
    cbn [merge_loop Z.to_nat mbind option_bind].
    change (generalmapFree (Generalmap 0 0 (Array 1 []) null (Array 2 []))
              (has_cmp None) (Heap 5 [4; 3; 2; 1]))
      with (Some (Generalmap 0 0 null null null, Heap 5 [4; 3])).
    reflexivity.
Qed.

(** The next power of two of 2^30 + 1 is no [int]. *)
Lemma pow2ize_overflow :
  generalmapInit (2 ^ 30 + 1) calloc false heap0
    = (Generalmap (- 2147483648) 0 null null null, heap0).
Proof. run. Qed.

(** C8, at the failing input: a size hint of 0 gives capacity 0, not 1;
    so does a negative one. *)
Theorem C8_init_zero :
  pow2ize 0 = 0 ∧
  generalmapInit 0 calloc true heap0
    = (Generalmap 0 0 (Array 1 []) (Array 2 []) (Array 3 []),
       Heap 4 [3; 2; 1]) ∧
  pow2ize (- 1) = 0.
Proof. split_and!; run. Qed.

(** A memory holding the strings "a" and "h", which hash to the same
    slot of a table of 8 slots, and the table holding both: "a" in its
    slot 2, "h" moved on to slot 3. *)
Definition probe_mem (p : Z) : option (list Z) :=
  if p =? 100 then Some [97]
  else if p =? 700 then Some [104]
  else None.

Definition hashmap_ah : generalmap :=
  Generalmap 8 2 (Array 4 [0; 0; 100; 700; 0; 0; 0; 0])
                 (Array 5 [0; 0; 2; 2; 0; 0; 0; 0])
                 (Array 6 [0; 0; 1; 2; 0; 0; 0; 0]).

Example hashmap_ah_adds :
  map (λ k, hashstr_f probe_mem k 8) [100; 700] = [Some 2; Some 2] ∧
  hashmapInit 8 calloc (Heap 4 [])
    = (Generalmap 8 0 (Array 4 [0; 0; 0; 0; 0; 0; 0; 0])
                      (Array 5 [0; 0; 0; 0; 0; 0; 0; 0])
                      (Array 6 [0; 0; 0; 0; 0; 0; 0; 0]), Heap 7 [6; 5; 4]) ∧
  adds (hashstr_f probe_mem) (Some (strcmp probe_mem)) 2
       [(100, 1); (700, 2)] true
       (Generalmap 8 0 (Array 4 [0; 0; 0; 0; 0; 0; 0; 0])
                       (Array 5 [0; 0; 0; 0; 0; 0; 0; 0])
                       (Array 6 [0; 0; 0; 0; 0; 0; 0; 0])) (Heap 7 [6; 5; 4])
    = Some (hashmap_ah, Heap 7 [6; 5; 4]).
Proof. split_and!; run. Qed.

(** Probing for "h" in that table, from its slot 2: the slot holds "a",
    whose cached hash is the same and which the comparator tells apart;
    the next slot holds the key. *)
Lemma C9_witness :
  ∃ idx,
    generalmapFind (Some (strcmp probe_mem)) hashmap_ah 700 2 = Some idx ∧
    0 ≤ idx < size hashmap_ah ∧
    (((empty_slot hashmap_ah idx ∨
       key_slot (Some (strcmp probe_mem)) hashmap_ah idx 700 2) ∧
      ∀ j, 0 ≤ j < size hashmap_ah →
           dist (size hashmap_ah) 2 j < dist (size hashmap_ah) 2 idx →
           other_slot (Some (strcmp probe_mem)) hashmap_ah j 700 2) ∨
     (idx = 2 ∧
      ∀ j, 0 ≤ j < size hashmap_ah →
           other_slot (Some (strcmp probe_mem)) hashmap_ah j 700 2)).
Proof.
  apply (C9_find_probes (Some (strcmp probe_mem)) hashmap_ah 700 2).
  - simpl. lia.
  - split; [simpl; lia|reflexivity].
  - split; [simpl; lia|reflexivity].
  - intros _. split; [simpl; lia|reflexivity].
  - intros c j k v [= <-] Hk Hv Hne.
    destruct (rd_Some _ _ _ Hk) as [_ Hj]. simpl in Hj.
    assert (j = 0 ∨ j = 1 ∨ j = 2 ∨ j = 3 ∨ j = 4 ∨ j = 5 ∨ j = 6 ∨ j = 7)
      as Hcases by lia.
    assert (Hdone : ∀ i, j = i → 0 ≤ i ≤ 7 →
              (rd (values hashmap_ah) i = Some 0 ∨
               ∃ s, probe_mem <$> rd (keysInt hashmap_ah) i = Some (Some s)) →
              is_Some (strcmp probe_mem k 700)).
    { intros i -> _ [Hz|[s Hs]]; [congruence|].
      rewrite Hk in Hs. injection Hs as Hs. unfold strcmp. rewrite Hs. done. }
    destruct Hcases as [E|[E|[E|[E|[E|[E|[E|E]]]]]]];
      apply (Hdone _ E); try lia;
      first [left; reflexivity | right; eexists; reflexivity].
  - simpl. lia.
Defined.

(** The three ways a probe ends, on the inputs above and on integer
    tables.  At the key, after a slot that holds another key: *)
Example C9_stops_at_the_key :
  generalmapFind (Some (strcmp probe_mem)) hashmap_ah 700 2 = Some 3 ∧
  other_slot (Some (strcmp probe_mem)) hashmap_ah 2 700 2 ∧
  key_slot (Some (strcmp probe_mem)) hashmap_ah 3 700 2 ∧
  generalmapFind None
    (Generalmap 4 2 (Array 1 [0; 1; 6; 0]) null (Array 2 [0; 11; 16; 0])) 6 1
    = Some 2 ∧
  other_slot None
    (Generalmap 4 2 (Array 1 [0; 1; 6; 0]) null (Array 2 [0; 11; 16; 0]))
    1 6 1 ∧
  key_slot None
    (Generalmap 4 2 (Array 1 [0; 1; 6; 0]) null (Array 2 [0; 11; 16; 0]))
    2 6 1.
Proof.
  split_and!; try run.
  - split; [by exists 1|]. exists 2. split; [done|]. right.
    exists 100, (-7). by vm_compute.
  - split; [by exists 2|]. split; [done|]. by exists 700.
  - split; [by exists 11|]. by exists 1.
  - split; [by exists 16|]. done.
Qed.

(** At an empty slot, after wrapping at the end of the table: probing
    for 5 in the table holding 1 and 2, 5 hashes to slot 3, which holds
    2, and the probe wraps to the empty slot 0. *)
Example C9_wraps_to_an_empty_slot :
  generalmapFind None intmap_12 5 3 = Some 0 ∧
  other_slot None intmap_12 3 5 3 ∧ empty_slot intmap_12 0.
Proof.
  split_and!; try run. split; [by exists 12|]. by exists 2.
Qed.

(** At the start slot, after a sweep of a table every slot of which
    holds another key. *)
Example C9_sweeps_a_full_table :
  generalmapFind None
    (Generalmap 2 2 (Array 1 [7; 9]) null (Array 2 [1; 1])) 5 1 = Some 1 ∧
  other_slot None (Generalmap 2 2 (Array 1 [7; 9]) null (Array 2 [1; 1]))
    0 5 1 ∧
  other_slot None (Generalmap 2 2 (Array 1 [7; 9]) null (Array 2 [1; 1]))
    1 5 1.
Proof.
  split_and!; try run.
  - split; [by exists 1|]. by exists 7.
  - split; [by exists 1|]. by exists 9.
Qed.

Lemma C10_witness :
  ∃ m' h', generalmapFree intmap_12 (has_cmp None) heap_12 = Some (m', h') ∧
    keysInt m' = null ∧ hashes m' = null ∧ values m' = null ∧
    size m' = size intmap_12 ∧ elements m' = elements intmap_12 ∧
    (∀ a, a ∈ live h' ↔ a ∈ live heap_12 ∧ a ∉ blocks None intmap_12) ∧
    (∀ hashes_p, generalmapFree m' hashes_p h' = Some (m', h')) ∧
    (∀ hashes_p h0,
       generalmapFree (Generalmap 0 0 null null null) hashes_p h0
       = Some (Generalmap 0 0 null null null, h0)).
Proof.
  apply (C10_free_nulls_arrays None intmap_12 heap_12).
  - split; [simpl; lia|]. simpl. intros a Ha.
    rewrite !elem_of_cons, elem_of_nil in Ha. lia.
  - unfold owned, blocks, has_cmp. simpl. split.
    + repeat constructor; rewrite ?elem_of_cons, ?elem_of_nil; lia.
    + intros a Ha. rewrite !elem_of_cons, elem_of_nil in *. lia.
Defined.

(** After Free the table that held two elements in four slots still says
    size 4 and elements 2, and is not [mapNull]. *)
Lemma C10_counterexample :
  intmapFree intmap_12 heap_12
    = Some (Generalmap 4 2 null null null, Heap 3 []) ∧
  size (Generalmap 4 2 null null null) ≠ 0 ∧
  elements (Generalmap 4 2 null null null) ≠ 0 ∧
  mapNull (Generalmap 4 2 null null null) = false.
Proof. split_and!; (run || done). Qed.
